(** * MIDI-Image: a shallow embedding of [src/main.py]

    The Python floats of [main.py] (message times, the normalised
    coordinates, the colour ratios) are modelled as exact rationals [Q];
    Python [int] values (notes, velocities, pixel coordinates, colour
    channels) are [Z].  The MIDI decoder ([mido]) is outside the
    repository: its output, the message stream, is the input of the model.
    The drawing primitives and filters of PIL that the renderers call are
    kept abstract (Section variables), except those the vignette step
    depends on pixel by pixel, which are written out. *)

From Stdlib Require Import QArith Qround Lia Lqa Sorted.
From stdpp Require Import base gmap list strings.

Open Scope Z_scope.

(** ** Messages and events (lines 23-37) *)

(** A decoded message, as yielded by [for msg in mid]. *)
Record msg := Msg {
  is_meta : bool;
  mtype : string;
  note : Z;
  velocity : Z;
  mtime : Q
}.

(** The tags ['start'] and ['end'] of the [events] tuples. *)
Inductive typ := Start | End.

(** The tuple [(time, note, velocity, typ)] appended to [events]. *)
Record event := Event {
  ev_time : Q;
  ev_note : Z;
  ev_vel : Z;
  ev_typ : typ
}.

(** The loop of lines 31-37, with [current_time] threaded as an accumulator. *)
Fixpoint collect_events (current_time : Q) (msgs : list msg) : list event :=
  match msgs with
  | [] => []
  | m :: ms =>
      if is_meta m then collect_events current_time ms
      else
        let t := (current_time + mtime m)%Q in
        if String.eqb (mtype m) "note_on" && (0 <? velocity m) then
          Event t (note m) (velocity m) Start :: collect_events t ms
        else if String.eqb (mtype m) "note_off"
                || (String.eqb (mtype m) "note_on" && (velocity m =? 0)) then
          Event t (note m) 0 End :: collect_events t ms
        else collect_events t ms
  end.

(** ** Note intervals (lines 39-48) *)

(** The tuple [(note, start_time, duration, vel)] of [music_notes]. *)
Record note_iv := NoteIv {
  n_note : Z;
  n_start : Q;
  n_dur : Q;
  n_vel : Z
}.

(** [active_notes]: a dict from note to [(start_time, velocity)]. *)
Abbreviation active := (gmap Z (Q * Z)).

(** [duration > 0] on rationals. *)
Definition Qltb (a b : Q) : bool := negb (Qle_bool b a).

(** One iteration of the loop of lines 41-48, on
    [(active_notes, music_notes)]. *)
Definition step (st : active * list note_iv) (e : event) : active * list note_iv :=
  let '(act, out) := st in
  match ev_typ e with
  | Start => (<[ev_note e := (ev_time e, ev_vel e)]> act, out)
  | End =>
      match act !! ev_note e with
      | None => (act, out)
      | Some (start_time, vel) =>
          let duration := (ev_time e - start_time)%Q in
          (delete (ev_note e) act,
           if Qltb 0 duration then out ++ [NoteIv (ev_note e) start_time duration vel]
           else out)
      end
  end.

Definition build_state (evs : list event) : active * list note_iv :=
  fold_left step evs (∅, []).

(** [music_notes] computed from [events]. *)
Definition music_notes (evs : list event) : list note_iv := snd (build_state evs).

(** The pending entry of a pitch after a prefix of the events. *)
Definition pending (evs : list event) (p : Z) : option (Q * Z) :=
  fst (build_state evs) !! p.

(** ** Scene extents (lines 53-57) *)

(** Python's [max] over an iterable: the running maximum is replaced only
    by a strictly greater item; an empty iterable raises ([None]). *)
Fixpoint py_max_from_Q (m : Q) (l : list Q) : Q :=
  match l with
  | [] => m
  | x :: xs => py_max_from_Q (if Qltb m x then x else m) xs
  end.

Definition py_max_Q (l : list Q) : option Q :=
  match l with [] => None | x :: xs => Some (py_max_from_Q x xs) end.

Fixpoint py_max_from_Z (m : Z) (l : list Z) : Z :=
  match l with
  | [] => m
  | x :: xs => py_max_from_Z (if m <? x then x else m) xs
  end.

Definition py_max_Z (l : list Z) : option Z :=
  match l with [] => None | x :: xs => Some (py_max_from_Z x xs) end.

Fixpoint py_min_from_Z (m : Z) (l : list Z) : Z :=
  match l with
  | [] => m
  | x :: xs => py_min_from_Z (if x <? m then x else m) xs
  end.

Definition py_min_Z (l : list Z) : option Z :=
  match l with [] => None | x :: xs => Some (py_min_from_Z x xs) end.

(** [max(n[1] + n[2] for n in music_notes) or 1]: a float is falsy
    exactly when it equals zero. *)
Definition total_duration (notes : list note_iv) : option Q :=
  match py_max_Q (map (fun n => n_start n + n_dur n)%Q notes) with
  | None => None
  | Some m => Some (if Qeq_bool m 0 then 1%Q else m)
  end.

Definition min_note (notes : list note_iv) : option Z := py_min_Z (map n_note notes).
Definition max_note (notes : list note_iv) : option Z := py_max_Z (map n_note notes).

(** [note_range = max(max_note - min_note, 1)]. *)
Definition note_range (notes : list note_iv) : option Z :=
  match min_note notes, max_note notes with
  | Some lo, Some hi => Some (Z.max (hi - lo) 1)
  | _, _ => None
  end.

(** ** Colour mapping (the closure [get_color], lines 60-121) *)

Definition rgb := (Z * Z * Z)%type.

(** Python's [int] on a float: truncation towards zero. *)
Definition py_int (q : Q) : Z :=
  if Qle_bool 0 q then Qfloor q else - Qfloor (- q).

(** [colorsys.hsv_to_rgb]. *)
Definition hsv_to_rgb (h s v : Q) : Q * Q * Q :=
  if Qeq_bool s 0 then (v, v, v)
  else
    let i := py_int (h * 6) in
    let f := (h * 6 - inject_Z i)%Q in
    let p := (v * (1 - s))%Q in
    let q := (v * (1 - s * f))%Q in
    let t := (v * (1 - s * (1 - f)))%Q in
    match i mod 6 with
    | 0 => (v, t, p)
    | 1 => (q, v, p)
    | 2 => (p, v, t)
    | 3 => (p, q, v)
    | 4 => (t, p, v)
    | _ => (v, p, q)
    end.

Definition map3 {A B} (f : A -> B) (c : A * A * A) : B * B * B :=
  let '(a, b, d) := c in (f a, f b, f d).

Definition note_names : list string :=
  ["C"; "C#"; "D"; "D#"; "E"; "F"; "F#"; "G"; "G#"; "A"; "A#"; "B"].

(** [dict.get(key, default)] on a dict given by its items. *)
Definition dict_get (d : list (string * rgb)) (k : string) (default : rgb) : rgb :=
  match find (fun kv => String.eqb (fst kv) k) d with
  | Some (_, v) => v
  | None => default
  end.

Definition ocean_palette : list (string * rgb) :=
  [("C", (20, 60, 130)); ("D", (40, 120, 180)); ("E", (70, 170, 210));
   ("F", (100, 190, 200)); ("G", (120, 200, 190)); ("A", (150, 210, 170));
   ("B", (180, 220, 150))].

Definition forest_palette : list (string * rgb) :=
  [("C", (30, 70, 40)); ("D", (50, 100, 60)); ("E", (80, 130, 80));
   ("F", (120, 160, 90)); ("G", (160, 190, 100)); ("A", (190, 210, 110));
   ("B", (210, 220, 120))].

Definition sunset_palette : list (string * rgb) :=
  [("C", (180, 50, 70)); ("D", (200, 80, 60)); ("E", (220, 110, 70));
   ("F", (230, 140, 80)); ("G", (240, 170, 90)); ("A", (250, 200, 120));
   ("B", (255, 230, 150))].

(** [get_color(note, velocity)], closing over [palette]. *)
Definition get_color (palette : string) (note velocity : Z) : rgb :=
  let base_note := String.substring 0 1 (nth (Z.to_nat (note mod 12)) note_names "") in
  let vel_ratio := (inject_Z velocity / 127)%Q in
  if String.eqb palette "hsv" then
    let hue := (inject_Z (note mod 12) / 12)%Q in
    let saturation := ((7 # 10) + vel_ratio * (3 # 10))%Q in
    let value := ((6 # 10) + vel_ratio * (4 # 10))%Q in
    map3 (fun c => py_int (c * 255)) (hsv_to_rgb hue saturation value)
  else if String.eqb palette "ocean" then
    let base_color := dict_get ocean_palette base_note (200, 200, 200) in
    let intensity := ((1 # 2) + vel_ratio * (1 # 2))%Q in
    map3 (fun c => py_int (inject_Z c * intensity)) base_color
  else if String.eqb palette "forest" then
    let base_color := dict_get forest_palette base_note (200, 200, 200) in
    let intensity := ((6 # 10) + vel_ratio * (4 # 10))%Q in
    map3 (fun c => py_int (inject_Z c * intensity)) base_color
  else if String.eqb palette "sunset" then
    let base_color := dict_get sunset_palette base_note (255, 255, 200) in
    let intensity := ((1 # 2) + vel_ratio * (1 # 2))%Q in
    map3 (fun c => Z.min 255 (py_int (inject_Z c * intensity))) base_color
  else if String.eqb palette "pastel" then
    let hue := (inject_Z (note mod 12) / 12)%Q in
    map3 (fun c => py_int (c * 255)) (hsv_to_rgb hue (3 # 10) (9 # 10))
  else if String.eqb palette "grayscale" then
    let intensity := (50 + vel_ratio * 205)%Q in
    (py_int intensity, py_int intensity, py_int intensity)
  else if String.eqb palette "fire" then
    let heat := (vel_ratio * (7 # 10) + (3 # 10))%Q in
    if Qltb heat (1 # 2) then
      (py_int (255 * heat * 2), py_int (100 * heat * 2), 0)
    else
      (255, py_int (100 + 155 * (heat - (1 # 2)) * 2), py_int (100 * (heat - (1 # 2)) * 2))
  else if String.eqb palette "ice" then
    let coldness := (vel_ratio * (7 # 10) + (3 # 10))%Q in
    (py_int (200 * coldness), py_int (230 * coldness), py_int (255 * coldness))
  else (200, 200, 200).

Definition palettes : list string :=
  ["hsv"; "ocean"; "forest"; "sunset"; "pastel"; "grayscale"; "fire"; "ice"].

(** ** Drawing commands and images *)

(** A fill given to [ImageDraw]: an RGB triple, or an RGBA 4-tuple. *)
Inductive color := Col3 (c : rgb) | Col4 (c : rgb) (alpha : Z).

(** The [ImageDraw] calls the renderers make, with their arguments. *)
Inductive draw_cmd :=
  | DRect (x0 y0 x1 y1 : Q) (fill : color)
  | DEllipse (x0 y0 x1 y1 : Q) (fill : color) (outline : option color)
  | DLine (x0 y0 x1 y1 : Q) (fill : color) (width : Z)
  | DPolygon (pts : list (Q * Q)) (fill : color).

(** An RGB image: its size and its pixels. *)
Record image := Image {
  iw : Z;
  ih : Z;
  ipx : Z -> Z -> rgb
}.

(** [Image.new('RGB', (width, height), color)]. *)
Definition image_new (width height : Z) (c : rgb) : image :=
  Image width height (fun _ _ => c).

(** [range(a, b)] and [range(a, b, -1)] over integers. *)
Definition py_range (a b : Z) : list Z :=
  map (fun k => a + Z.of_nat k) (seq 0 (Z.to_nat (b - a))).
Definition py_range_down (a b : Z) : list Z :=
  map (fun k => a - Z.of_nat k) (seq 0 (Z.to_nat (a - b))).

(** [int((t / total_duration) * width)], shared by the renderers. *)
Definition x_of (t total_duration : Q) (width : Z) : Z :=
  py_int ((t / total_duration) * inject_Z width)%Q.

(** The vertical coordinate each renderer computes for a note. *)
Definition watercolor_y (height min_note note_range note : Z) : Q :=
  (inject_Z height - 50
   - (inject_Z (note - min_note) / inject_Z note_range) * inject_Z (height - 100))%Q.

Definition neon_y (height min_note note_range note : Z) : Q :=
  (inject_Z height
   - (inject_Z (note - min_note) / inject_Z note_range) * inject_Z (height - 50))%Q.

Definition particle_y (height min_note note_range note : Z) : Q :=
  (inject_Z height
   - (inject_Z (note - min_note) / inject_Z note_range) * inject_Z (height - 50))%Q.

Definition geometric_y (height min_note note_range note : Z) : Q :=
  (inject_Z height
   - (inject_Z (note - min_note) / inject_Z note_range) * inject_Z (height - 50))%Q.

Definition classic_y (height min_note note_range note : Z) : Q :=
  (inject_Z height
   - (inject_Z (note - min_note) / inject_Z note_range) * inject_Z (height - 50))%Q.

(** ** Deterministic renderers (their drawing calls) *)

(** [create_classic_style], lines 231-238. *)
Definition classic_cmds (notes : list note_iv) (width height : Z)
    (get_color : Z -> Z -> rgb) (total_duration : Q) (min_note note_range : Z)
    : list draw_cmd :=
  map (fun n =>
         let x1 := x_of (n_start n) total_duration width in
         let x2 := x_of (n_start n + n_dur n)%Q total_duration width in
         let y1 := classic_y height min_note note_range (n_note n) in
         let y2 := (y1 - 20)%Q in
         let c := get_color (n_note n) (n_vel n) in
         DRect (inject_Z x1) y1 (inject_Z x2) y2 (Col3 c))
      notes.

(** The glow alpha of line [r]: [min(255, int(30 * (1 - r/10) * 255))]. *)
Definition glow_alpha (r : Z) : Z :=
  Z.min 255 (py_int (30 * (1 - inject_Z r / 10) * 255)%Q).

(** [glow_color]: [color] is always a 3-tuple here, so the white
    fallback of line 179 is never taken. *)
Definition neon_note_cmds (width height : Z) (get_color : Z -> Z -> rgb)
    (total_duration : Q) (min_note note_range : Z) (n : note_iv) : list draw_cmd :=
  let x1 := inject_Z (x_of (n_start n) total_duration width) in
  let x2 := inject_Z (x_of (n_start n + n_dur n)%Q total_duration width) in
  let y := neon_y height min_note note_range (n_note n) in
  let c := get_color (n_note n) (n_vel n) in
  map (fun r => DLine x1 y x2 y (Col4 c (glow_alpha r)) (r * 2)) (py_range_down 10 0)
  ++ [DLine x1 y x2 y (Col3 c) 3].

(** [create_neon_style], lines 170-182. *)
Definition neon_cmds (notes : list note_iv) (width height : Z)
    (get_color : Z -> Z -> rgb) (total_duration : Q) (min_note note_range : Z)
    : list draw_cmd :=
  flat_map (neon_note_cmds width height get_color total_duration min_note note_range) notes.

(** [create_geometric_style], lines 210-222. *)
Definition geometric_cmds (notes : list note_iv) (width height : Z)
    (get_color : Z -> Z -> rgb) (total_duration : Q) (min_note note_range : Z)
    : list draw_cmd :=
  map (fun n =>
         let x1 := inject_Z (x_of (n_start n) total_duration width) in
         let x2 := inject_Z (x_of (n_start n + n_dur n)%Q total_duration width) in
         let y := geometric_y height min_note note_range (n_note n) in
         let c := get_color (n_note n) (n_vel n) in
         if n_note n mod 3 =? 0 then DRect x1 (y - 15)%Q x2 (y + 15)%Q (Col3 c)
         else if n_note n mod 3 =? 1 then
           DPolygon [(x1, y); (x2, (y - 20)%Q); (x2, (y + 20)%Q)] (Col3 c)
         else DEllipse x1 (y - 15)%Q x2 (y + 15)%Q (Col3 c) None)
      notes.

(** ** The vignette (lines 242-255) *)

Definition rgba := (Z * Z * Z * Z)%type.

(** [img.convert('RGBA')] and [img.convert('RGB')] on one pixel. *)
Definition rgb_to_rgba (c : rgb) : rgba := let '(r, g, b) := c in (r, g, b, 255).
Definition rgba_to_rgb (c : rgba) : rgb := let '(r, g, b, _) := c in (r, g, b).

(** Pixels of the one-pixel outline of [draw.rectangle([i, i, width-i, height-i])]. *)
Definition on_outline (i width height x y : Z) : bool :=
  ((x =? i) || (x =? width - i)) && (i <=? y) && (y <=? height - i)
  || ((y =? i) || (y =? height - i)) && (i <=? x) && (x <=? width - i).

(** [alpha = int(70 * (1 - i/max_border) * intensity)]. *)
Definition vignette_alpha (max_border i : Z) (intensity : Q) : Z :=
  py_int (70 * (1 - inject_Z i / inject_Z max_border) * intensity)%Q.

(** The transparent layer [vignette] after the loop of lines 249-251:
    later rings overwrite earlier ones. *)
Definition vignette_layer (width height : Z) (intensity : Q) (x y : Z) : rgba :=
  let max_border := Z.min width height / 3 in
  fold_left (fun acc i =>
               if on_outline i width height x y
               then (0, 0, 0, vignette_alpha max_border i intensity) else acc)
            (py_range 0 max_border) (0, 0, 0, 0).

(** PIL's [alpha_composite] of one source pixel over one destination
    pixel (integer arithmetic with 7 extra bits of precision). *)
Definition shift_for_div255 (a : Z) : Z := Z.shiftr (Z.shiftr a 8 + a) 8.

Definition alpha_composite_px (dst src : rgba) : rgba :=
  let '(dr, dg, db, da) := dst in
  let '(sr, sg, sb, sa) := src in
  if sa =? 0 then dst
  else
    let blend := da * (255 - sa) in
    let outa255 := sa * 255 + blend in
    let coef1 := sa * 255 * 255 * Z.shiftl 1 7 / outa255 in
    let coef2 := 255 * Z.shiftl 1 7 - coef1 in
    let ch s d := Z.shiftr (shift_for_div255 (s * coef1 + d * coef2 + Z.shiftl 128 7)) 7 in
    (ch sr dr, ch sg dg, ch sb db, shift_for_div255 (outa255 + 128)).

(** [apply_vignette]: its calls [draw.rectangle([i, i, width-i, height-i])]
    have [i < min(width, height) // 3], so every box is ordered and Pillow
    accepts it; the function raises nothing and is modelled as total. *)
Definition apply_vignette (img : image) (intensity : Q) : image :=
  Image (iw img) (ih img)
    (fun x y =>
       rgba_to_rgb (alpha_composite_px (rgb_to_rgba (ipx img x y))
                      (vignette_layer (iw img) (ih img) intensity x y))).

(** ** Randomised renderers and the whole pipeline *)

(** The run-time configuration: the keyword arguments of [midi_to_artistic]. *)
Record config := Config {
  img_width : Z;
  img_height : Z;
  bg_color : rgb;
  style : string;
  palette : string;
  enable_vinhetas : bool;
  blur_radius : Q;
  effect_intensity : Q
}.

(** Pillow's [ImageDraw.rectangle] and [ImageDraw.ellipse] raise
    [ValueError] unless the box has [x1 >= x0] and [y1 >= y0] (the check
    of [_draw_rectangle] and [_draw_ellipse] in [_imaging.c]); lines and
    polygons take their points as given. *)
Definition pil_box_ok (c : draw_cmd) : bool :=
  match c with
  | DRect x0 y0 x1 y1 _ | DEllipse x0 y0 x1 y1 _ _ => Qle_bool x0 x1 && Qle_bool y0 y1
  | DLine _ _ _ _ _ _ | DPolygon _ _ => true
  end.

Section Pipeline.

(** The global generator of [random], threaded explicitly. *)
Variable rng : Type.
Variable randint : Z -> Z -> rng -> Z * rng.
(** PIL: the pixels a drawing call that Pillow accepts puts on an RGB
    image, and the two filters used. *)
Variable draw_prim : draw_cmd -> image -> image.
Variable smooth_more : image -> image.
Variable gaussian_blur : Q -> image -> image.

(** The drawing calls of a renderer, in order; [None] stands for the
    [ValueError] of the first call Pillow rejects (the later calls are
    never made). *)
Fixpoint draw_all (cmds : list draw_cmd) (img : image) : option image :=
  match cmds with
  | [] => Some img
  | c :: cs => if pil_box_ok c then draw_all cs (draw_prim c img) else None
  end.

(** [for i in range(3)] of the watercolor renderer. *)
Fixpoint watercolor_layers (k : nat) (x1 x2 : Z) (y : Q) (c : rgb) (r : rng)
    : list draw_cmd * rng :=
  match k with
  | O => ([], r)
  | S k' =>
      let '(offset, r1) := randint (-10) 10 r in
      let '(_radius, r2) := randint 5 15 r1 in
      let cmd := DEllipse (inject_Z (x1 + offset)) (y - 20 + inject_Z offset)%Q
                          (inject_Z (x2 + offset)) (y + 20 + inject_Z offset)%Q
                          (Col3 c) (Some (Col3 c)) in
      let '(rest, r3) := watercolor_layers k' x1 x2 y c r2 in
      (cmd :: rest, r3)
  end.

Fixpoint watercolor_cmds (notes : list note_iv) (width height : Z)
    (get_color : Z -> Z -> rgb) (total_duration : Q) (min_note note_range : Z)
    (r : rng) : list draw_cmd * rng :=
  match notes with
  | [] => ([], r)
  | n :: ns =>
      let x1 := x_of (n_start n) total_duration width in
      let x2 := x_of (n_start n + n_dur n)%Q total_duration width in
      let y := watercolor_y height min_note note_range (n_note n) in
      let c := get_color (n_note n) (n_vel n) in
      let '(cs, r1) := watercolor_layers 3 x1 x2 y c r in
      let '(rest, r2) := watercolor_cmds ns width height get_color total_duration
                           min_note note_range r1 in
      (cs ++ rest, r2)
  end.

Definition create_watercolor_style (notes : list note_iv) (width height : Z)
    (get_color : Z -> Z -> rgb) (total_duration : Q) (min_note note_range : Z)
    (r : rng) : option (image * rng) :=
  let '(cmds, r') := watercolor_cmds notes width height get_color total_duration
                       min_note note_range r in
  match draw_all cmds (image_new width height (240, 240, 235)) with
  | Some img => Some (smooth_more img, r')
  | None => None
  end.

(** [for _ in range(particle_count)] of the particle renderer. *)
Fixpoint particles (k : nat) (x : Z) (y : Q) (c : rgb) (r : rng) : list draw_cmd * rng :=
  match k with
  | O => ([], r)
  | S k' =>
      let '(dx, r1) := randint (-30) 30 r in
      let '(dy, r2) := randint (-30) 30 r1 in
      let '(size, r3) := randint 1 5 r2 in
      let px := x + dx in
      let py := (y + inject_Z dy)%Q in
      let cmd := DEllipse (inject_Z (px - size)) (py - inject_Z size)%Q
                          (inject_Z (px + size)) (py + inject_Z size)%Q (Col3 c) None in
      let '(rest, r4) := particles k' x y c r3 in
      (cmd :: rest, r4)
  end.

Fixpoint particle_cmds (notes : list note_iv) (width height : Z)
    (get_color : Z -> Z -> rgb) (total_duration : Q) (min_note note_range : Z)
    (r : rng) : list draw_cmd * rng :=
  match notes with
  | [] => ([], r)
  | n :: ns =>
      let x := x_of (n_start n + n_dur n / 2)%Q total_duration width in
      let y := particle_y height min_note note_range (n_note n) in
      let c := get_color (n_note n) (n_vel n) in
      let particle_count := py_int (inject_Z (n_vel n) / 10)%Q in
      let '(cs, r1) := particles (Z.to_nat particle_count) x y c r in
      let '(rest, r2) := particle_cmds ns width height get_color total_duration
                           min_note note_range r1 in
      (cs ++ rest, r2)
  end.

Definition create_particle_style (notes : list note_iv) (width height : Z)
    (get_color : Z -> Z -> rgb) (total_duration : Q) (min_note note_range : Z)
    (r : rng) : option (image * rng) :=
  let '(cmds, r') := particle_cmds notes width height get_color total_duration
                       min_note note_range r in
  match draw_all cmds (image_new width height (10, 10, 20)) with
  | Some img => Some (img, r')
  | None => None
  end.

Definition create_neon_style (notes : list note_iv) (width height : Z)
    (get_color : Z -> Z -> rgb) (total_duration : Q) (min_note note_range : Z) : option image :=
  draw_all (neon_cmds notes width height get_color total_duration min_note note_range)
    (image_new width height (0, 0, 0)).

Definition create_geometric_style (notes : list note_iv) (width height : Z)
    (get_color : Z -> Z -> rgb) (total_duration : Q) (min_note note_range : Z) : option image :=
  draw_all (geometric_cmds notes width height get_color total_duration min_note note_range)
    (image_new width height (250, 250, 245)).

Definition create_classic_style (notes : list note_iv) (width height : Z)
    (get_color : Z -> Z -> rgb) (total_duration : Q) (min_note note_range : Z) : option image :=
  draw_all (classic_cmds notes width height get_color total_duration min_note note_range)
    (image_new width height (20, 20, 30)).

(** A renderer that draws no random number leaves the generator as it was. *)
Definition with_rng (o : option image) (r : rng) : option (image * rng) :=
  match o with Some img => Some (img, r) | None => None end.

(** The style dispatch of lines 124-133. *)
Definition render_style (style : string) (notes : list note_iv) (width height : Z)
    (get_color : Z -> Z -> rgb) (total_duration : Q) (min_note note_range : Z)
    (r : rng) : option (image * rng) :=
  if String.eqb style "watercolor" then
    create_watercolor_style notes width height get_color total_duration min_note note_range r
  else if String.eqb style "neon" then
    with_rng (create_neon_style notes width height get_color total_duration min_note note_range) r
  else if String.eqb style "particles" then
    create_particle_style notes width height get_color total_duration min_note note_range r
  else if String.eqb style "geometric" then
    with_rng (create_geometric_style notes width height get_color total_duration min_note
                note_range) r
  else
    with_rng (create_classic_style notes width height get_color total_duration min_note
                note_range) r.

(** [midi_to_artistic] on the decoded message stream; [None] stands for a
    raised exception (a drawing call Pillow rejects).  Writing the file
    (line 142) is not modelled: the image returned is the one handed to
    [img.save]. *)
Definition midi_to_artistic (msgs : list msg) (cfg : config) (r : rng)
    : option (image * rng) :=
  let events := collect_events 0 msgs in
  let notes := music_notes events in
  match notes with
  | [] => Some (image_new (img_width cfg) (img_height cfg) (bg_color cfg), r)
  | _ :: _ =>
      match total_duration notes, min_note notes, note_range notes with
      | Some td, Some mn, Some rg =>
          match render_style (style cfg) notes (img_width cfg) (img_height cfg)
                  (get_color (palette cfg)) td mn rg r with
          | None => None
          | Some (img, r') =>
              let img := if Qltb 0 (blur_radius cfg) then gaussian_blur (blur_radius cfg) img
                         else img in
              let img := if enable_vinhetas cfg then apply_vignette img (effect_intensity cfg)
                         else img in
              Some (img, r')
          end
      | _, _, _ => None
      end
  end.

End Pipeline.

Arguments with_rng {rng} o r.

Definition styles : list string := ["watercolor"; "neon"; "particles"; "geometric"; "classic"].

(** The most recent [Start] event of pitch [p] in a sequence of events. *)
Definition last_start (p : Z) (evs : list event) : option (Q * Z) :=
  fold_left (fun acc e =>
               match ev_typ e with
               | Start => if ev_note e =? p then Some (ev_time e, ev_vel e) else acc
               | End => acc
               end) evs None.

(** The same event with the velocity of an [End] event replaced. *)
Definition set_end_vel (g : event -> Z) (e : event) : event :=
  match ev_typ e with
  | Start => e
  | End => Event (ev_time e) (ev_note e) (g e) End
  end.

(** The coordinate maps as the spec states them (section 4.2), to be
    compared with what each renderer computes:
    [timeToX(t) = (t / totalDuration) * width] and
    [pitchToY(p) = height - ((p - minPitch) / pitchRange) * (height - verticalMargin)]. *)
Definition spec_time_to_x (t total_duration : Q) (width : Z) : Q :=
  ((t / total_duration) * inject_Z width)%Q.

Definition spec_pitch_to_y (vertical_margin height min_note note_range note : Z) : Q :=
  (inject_Z height
   - (inject_Z (note - min_note) / inject_Z note_range) * inject_Z (height - vertical_margin))%Q.

(** The three notes of the example of the spec (section 8). *)
Definition example_notes : list note_iv :=
  [NoteIv 60 0 1 100; NoteIv 64 (1 # 2) 1 80; NoteIv 67 (3 # 2) (1 # 2) 110].

(** Every channel of a colour is a byte. *)
Definition channel_ok (c : rgb) : bool :=
  let '(r, g, b) := c in
  (0 <=? r) && (r <=? 255) && (0 <=? g) && (g <=? 255) && (0 <=? b) && (b <=? 255).

(** [channel_ok] on every named palette, pitch class and MIDI velocity. *)
Definition all_colors_ok : bool :=
  forallb (fun pal =>
             forallb (fun n => forallb (fun v => channel_ok (get_color pal n v))
                                       (py_range 0 128))
                     (py_range 0 12))
          palettes.

(** Events in chronological order: each time is at least the previous one
    (the contract of the builder's input). *)
Fixpoint chrono_from (t : Q) (evs : list event) : bool :=
  match evs with
  | [] => true
  | e :: es => Qle_bool t (ev_time e) && chrono_from (ev_time e) es
  end.

Definition chronological (evs : list event) : bool :=
  match evs with [] => true | e :: _ => chrono_from (ev_time e) evs end.

Definition is_end (e : event) : bool :=
  match ev_typ e with End => true | Start => false end.

(** The end time [start + duration] of an interval. *)
Definition n_end (n : note_iv) : Q := (n_start n + n_dur n)%Q.

(** Channel-wise order on colours. *)
Definition rgb_le (c1 c2 : rgb) : Prop :=
  let '(r1, g1, b1) := c1 in
  let '(r2, g2, b2) := c2 in
  r1 <= r2 /\ g1 <= g2 /\ b1 <= b2.

(** Python's [random.randint(a, b)] returns an integer [N] with
    [a <= N <= b]. *)
Definition randint_contract {rng : Type} (randint : Z -> Z -> rng -> Z * rng) : Prop :=
  forall lo hi r, lo <= hi -> lo <= fst (randint lo hi r) <= hi.

(** ** Interval builder: lemmas *)

Lemma Qltb_iff a b : Qltb a b = true <-> (a < b)%Q.
Proof.
  unfold Qltb. rewrite negb_true_iff. split; intros H.
  - apply Qnot_le_lt. intros H'. apply Qle_bool_iff in H'. congruence.
  - destruct (Qle_bool b a) eqn:E; [|reflexivity].
    apply Qle_bool_iff in E. exfalso. exact (Qlt_not_le _ _ H E).
Qed.

Lemma build_state_snoc evs e :
  build_state (evs ++ [e]) = step (build_state evs) e.
Proof. unfold build_state. by rewrite fold_left_app. Qed.

Lemma pending_snoc evs e p :
  pending (evs ++ [e]) p = fst (step (build_state evs) e) !! p.
Proof. unfold pending. by rewrite build_state_snoc. Qed.

Lemma last_start_snoc p evs e :
  last_start p (evs ++ [e]) =
  match ev_typ e with
  | Start => if ev_note e =? p then Some (ev_time e, ev_vel e) else last_start p evs
  | End => last_start p evs
  end.
Proof. unfold last_start. by rewrite fold_left_app. Qed.

(** One step appends at most the interval closed by the event, whose
    start and velocity come from the pending entry of its pitch. *)
Lemma step_out act out e :
  exists extra, snd (step (act, out) e) = out ++ extra /\
    forall iv, In iv extra ->
      ev_typ e = End /\ ev_note e = n_note iv /\ act !! n_note iv = Some (n_start iv, n_vel iv).
Proof.
  unfold step. destruct (ev_typ e) eqn:Et.
  - exists []. split; [by rewrite app_nil_r | intros ? []].
  - destruct (act !! ev_note e) as [[t0 v0]|] eqn:Ea.
    + destruct (Qltb 0 (ev_time e - t0)).
      * exists [NoteIv (ev_note e) t0 (ev_time e - t0) v0]. split; [done|].
        intros iv [<-|[]]. simpl. auto.
      * exists []. split; [by rewrite app_nil_r | intros ? []].
    + exists []. split; [by rewrite app_nil_r | intros ? []].
Qed.

(** Every pending entry is the most recent start of its pitch. *)
Lemma pending_last_start evs p x :
  pending evs p = Some x -> last_start p evs = Some x.
Proof.
  revert x. induction evs as [|e evs IH] using rev_ind; intros x.
  - intros H. exfalso. revert H. change (pending [] p) with ((∅ : gmap Z (Q * Z)) !! p).
    by rewrite lookup_empty.
  - rewrite pending_snoc, last_start_snoc.
    unfold pending in IH. destruct (build_state evs) as [act out]. unfold step.
    destruct (ev_typ e).
    + cbn [fst]. destruct (Z.eqb_spec (ev_note e) p) as [->|Hne]; cbn [fst].
      * by rewrite lookup_insert_eq.
      * rewrite lookup_insert_ne by done. apply IH.
    + destruct (act !! ev_note e) as [[t0 v0]|] eqn:Ea; cbn [fst].
      * destruct (decide (ev_note e = p)) as [->|Hne].
        -- by rewrite lookup_delete_eq.
        -- rewrite lookup_delete_ne by done. apply IH.
      * apply IH.
Qed.

Lemma step_set_end_vel g st e : step st (set_end_vel g e) = step st e.
Proof. destruct st, e as [t n v []]; reflexivity. Qed.

Lemma fold_step_set_end_vel g evs st :
  fold_left step (map (set_end_vel g) evs) st = fold_left step evs st.
Proof.
  revert st. induction evs as [|e evs IH]; intros st; [done|].
  simpl. rewrite step_set_end_vel. apply IH.
Qed.

Lemma collect_events_end_vel msgs t0 e :
  In e (collect_events t0 msgs) -> ev_typ e = End -> ev_vel e = 0.
Proof.
  revert t0. induction msgs as [|m ms IH]; intros t0; simpl; [intros []|].
  destruct (is_meta m); [apply IH|].
  destruct (String.eqb (mtype m) "note_on" && (0 <? velocity m)).
  - intros [<-|Hin]; [discriminate|]. apply (IH _ Hin).
  - destruct (_ || _).
    + intros [<-|Hin]; [done|]. apply (IH _ Hin).
    + apply IH.
Qed.

(** ** Interval builder: claims *)

(** C1: a [NoteInterval] is emitted exactly when a [NoteEnd] event finds a
    pending start for its pitch with strictly positive elapsed time, and it
    carries [duration = currentTime - pendingStart]; in every other case
    nothing is emitted; a [NoteEnd] with no pending start leaves the whole
    builder state unchanged (it is not an error); a [NoteStart] sets the
    pending entry of its pitch, and a second [NoteStart] for the same pitch
    overwrites the first, as if the first had never happened. *)
Theorem interval_builder_emission :
  forall evs e,
    (forall t0 v0,
       ev_typ e = End -> pending evs (ev_note e) = Some (t0, v0) ->
       (0 < ev_time e - t0)%Q ->
       music_notes (evs ++ [e]) =
       music_notes evs ++ [NoteIv (ev_note e) t0 (ev_time e - t0) v0])
    /\ ((ev_typ e = Start \/ pending evs (ev_note e) = None
         \/ exists t0 v0, pending evs (ev_note e) = Some (t0, v0)
                          /\ (ev_time e - t0 <= 0)%Q) ->
        music_notes (evs ++ [e]) = music_notes evs)
    /\ (ev_typ e = End -> pending evs (ev_note e) = None ->
        build_state (evs ++ [e]) = build_state evs)
    /\ (ev_typ e = Start ->
        pending (evs ++ [e]) (ev_note e) = Some (ev_time e, ev_vel e))
    /\ (forall e', ev_typ e = Start -> ev_typ e' = Start -> ev_note e = ev_note e' ->
        build_state (evs ++ [e; e']) = build_state (evs ++ [e'])).
Proof.
  intros evs e. unfold music_notes, pending.
  rewrite !build_state_snoc.
  destruct (build_state evs) as [act out] eqn:Hb. cbn [fst].
  split; [|split; [|split; [|split]]].
  - intros t0 v0 Ht Ha Hpos. unfold step. rewrite Ht, Ha.
    apply Qltb_iff in Hpos. by rewrite Hpos.
  - intros [Ht|[Ha|(t0 & v0 & Ha & Hle)]]; unfold step.
    + by rewrite Ht.
    + destruct (ev_typ e); [done|]. by rewrite Ha.
    + destruct (ev_typ e); [done|]. rewrite Ha. cbn [snd].
      destruct (Qltb 0 (ev_time e - t0)) eqn:E; [|done].
      apply Qltb_iff in E. exfalso. exact (Qlt_not_le _ _ E Hle).
  - intros Ht Ha. unfold step. by rewrite Ht, Ha.
  - intros Ht. unfold step. rewrite Ht. cbn [fst]. by rewrite lookup_insert_eq.
  - intros e' Ht Ht' Hn.
    change (evs ++ [e; e']) with (evs ++ [e] ++ [e']).
    rewrite app_assoc, !build_state_snoc, Hb.
    unfold step. rewrite Ht, Ht', Hn. by rewrite insert_insert_eq.
Qed.

(** C10: an [end] event always carries velocity 0 when it is built from the
    message stream; the builder's output does not depend on the velocity of
    [end] events at all; and every emitted interval comes from an [end]
    event of its pitch whose start time and velocity are those of the most
    recent [NoteStart] of that pitch before it. *)
Theorem interval_velocity_from_start :
  (forall msgs t0 e, In e (collect_events t0 msgs) -> ev_typ e = End -> ev_vel e = 0)
  /\ (forall evs g, music_notes (map (set_end_vel g) evs) = music_notes evs)
  /\ (forall evs iv, In iv (music_notes evs) ->
        exists pre e post, evs = pre ++ e :: post /\ ev_typ e = End
          /\ ev_note e = n_note iv
          /\ last_start (n_note iv) pre = Some (n_start iv, n_vel iv)).
Proof.
  split; [|split].
  - apply collect_events_end_vel.
  - intros evs g. unfold music_notes, build_state. by rewrite fold_step_set_end_vel.
  - intros evs iv. induction evs as [|e evs IH] using rev_ind; [intros []|].
    unfold music_notes. rewrite build_state_snoc.
    destruct (build_state evs) as [act out] eqn:Hb.
    destruct (step_out act out e) as (extra & -> & Hextra).
    intros Hin. apply in_app_or in Hin as [Hin|Hin].
    + unfold music_notes in IH. rewrite Hb in IH.
      destruct (IH Hin) as (pre & e' & post & -> & H1 & H2 & H3).
      exists pre, e', (post ++ [e]). split; [|auto].
      by rewrite <- app_assoc.
    + destruct (Hextra iv Hin) as (Ht & Hn & Ha).
      exists evs, e, []. repeat split; auto.
      apply pending_last_start. unfold pending. by rewrite Hb.
Qed.

(** C1 at a restrike: two starts of pitch 60 at times 0 and 1, then an
    end at time 3/2: the interval starts at 1, with the second velocity. *)
Lemma interval_builder_emission_witness :
  music_notes ([Event 0 60 100 Start; Event 1 60 90 Start] ++ [Event (3 # 2) 60 0 End]) =
  music_notes [Event 0 60 100 Start; Event 1 60 90 Start]
  ++ [NoteIv 60 1 ((3 # 2) - 1) 90].
Proof.
  apply (proj1 (interval_builder_emission
                  [Event 0 60 100 Start; Event 1 60 90 Start] (Event (3 # 2) 60 0 End))
           1%Q 90).
  - reflexivity.
  - reflexivity.
  - vm_compute. reflexivity.
Defined.

(** C10 on the events of a restrike: the velocity 90 of the later start
    is the one kept. *)
Lemma interval_velocity_from_start_witness :
  exists pre e post,
    [Event 0 60 100 Start; Event 1 60 90 Start; Event 2 60 0 End]
    = pre ++ e :: post /\ ev_typ e = End /\ ev_note e = 60
    /\ last_start 60 pre = Some (1%Q, 90).
Proof.
  apply (proj2 (proj2 interval_velocity_from_start)
           [Event 0 60 100 Start; Event 1 60 90 Start; Event 2 60 0 End]
           (NoteIv 60 1 (2 - 1) 90)).
  vm_compute. left. reflexivity.
Defined.

(** ** Scene extents: lemmas *)

Lemma py_max_from_Q_spec m l :
  (m <= py_max_from_Q m l)%Q /\ (forall x, In x l -> x <= py_max_from_Q m l)%Q
  /\ In (py_max_from_Q m l) (m :: l).
Proof.
  revert m. induction l as [|x xs IH]; intros m; simpl.
  - split; [apply Qle_refl|]. split; [intros _ []|]. auto.
  - destruct (Qltb m x) eqn:E.
    + apply Qltb_iff in E. destruct (IH x) as (H1 & H2 & H3).
      split; [apply Qlt_le_weak; eapply Qlt_le_trans; eauto|].
      split; [intros y [<-|Hy]; auto|]. simpl in H3 |- *. tauto.
    + assert (Hxm : (x <= m)%Q).
      { apply Qnot_lt_le. intros Hlt. apply Qltb_iff in Hlt. congruence. }
      destruct (IH m) as (H1 & H2 & H3).
      split; [done|]. split.
      * intros y [<-|Hy]; [eapply Qle_trans; eauto | auto].
      * simpl in H3 |- *. tauto.
Qed.

Lemma py_max_from_Z_spec m l :
  m <= py_max_from_Z m l /\ (forall x, In x l -> x <= py_max_from_Z m l).
Proof.
  revert m. induction l as [|x xs IH]; intros m; simpl.
  - split; [lia | intros _ []].
  - destruct (Z.ltb_spec m x).
    + destruct (IH x) as (H1 & H2). split; [lia|]. intros y [<-|Hy]; auto.
    + destruct (IH m) as (H1 & H2). split; [lia|]. intros y [<-|Hy]; [lia | auto].
Qed.

Lemma py_min_from_Z_spec m l :
  py_min_from_Z m l <= m /\ (forall x, In x l -> py_min_from_Z m l <= x).
Proof.
  revert m. induction l as [|x xs IH]; intros m; simpl.
  - split; [lia | intros _ []].
  - destruct (Z.ltb_spec x m).
    + destruct (IH x) as (H1 & H2). split; [lia|]. intros y [<-|Hy]; auto.
    + destruct (IH m) as (H1 & H2). split; [lia|]. intros y [<-|Hy]; [lia | auto].
Qed.

(** ** Scene extents: claim *)

(** C3: for a non-empty interval collection, [total_duration] is the
    maximum of [start + duration] over the intervals, replaced by 1 when
    that maximum is zero, and is at least every [start + duration];
    [note_range] is [max(maxPitch - minPitch, 1)] and is at least 1. *)
Theorem scene_extents_bounds :
  forall notes, notes <> [] ->
  exists m td lo hi rg,
    py_max_Q (map (fun n => n_start n + n_dur n)%Q notes) = Some m
    /\ In m (map (fun n => n_start n + n_dur n)%Q notes)
    /\ (forall n, In n notes -> n_start n + n_dur n <= m)%Q
    /\ total_duration notes = Some td
    /\ td = (if Qeq_bool m 0 then 1%Q else m)
    /\ (forall n, In n notes -> n_start n + n_dur n <= td)%Q
    /\ min_note notes = Some lo /\ max_note notes = Some hi
    /\ (forall n, In n notes -> lo <= n_note n <= hi)
    /\ note_range notes = Some rg /\ rg = Z.max (hi - lo) 1 /\ 1 <= rg.
Proof.
  intros [|n0 ns] Hne; [done|].
  set (ends := map (fun n => n_start n + n_dur n)%Q (n0 :: ns)).
  set (m := py_max_from_Q (n_start n0 + n_dur n0) (map (fun n => n_start n + n_dur n)%Q ns)).
  set (lo := py_min_from_Z (n_note n0) (map n_note ns)).
  set (hi := py_max_from_Z (n_note n0) (map n_note ns)).
  destruct (py_max_from_Q_spec (n_start n0 + n_dur n0) (map (fun n => n_start n + n_dur n)%Q ns))
    as (Hm0 & Hm & Hin).
  destruct (py_min_from_Z_spec (n_note n0) (map n_note ns)) as (Hlo0 & Hlo).
  destruct (py_max_from_Z_spec (n_note n0) (map n_note ns)) as (Hhi0 & Hhi).
  assert (Hends : forall n, In n (n0 :: ns) -> (n_start n + n_dur n <= m)%Q).
  { intros n [<-|Hn]; [done|]. apply Hm. apply in_map_iff. eauto. }
  exists m, (if Qeq_bool m 0 then 1%Q else m), lo, hi, (Z.max (hi - lo) 1).
  split; [reflexivity|]. split; [exact Hin|]. split; [exact Hends|].
  split; [reflexivity|]. split; [reflexivity|]. split.
  { intros n Hn. specialize (Hends n Hn).
    destruct (Qeq_bool m 0) eqn:E; [|done].
    apply Qeq_bool_iff in E. rewrite E in Hends.
    eapply Qle_trans; [exact Hends|]. discriminate. }
  split; [reflexivity|]. split; [reflexivity|]. split.
  { intros n [<-|Hn]; [lia|].
    assert (Hx : In (n_note n) (map n_note ns)) by (apply in_map_iff; eauto).
    specialize (Hlo _ Hx). specialize (Hhi _ Hx). lia. }
  split; [reflexivity|]. split; [reflexivity|]. lia.
Qed.

Lemma scene_extents_bounds_witness :
  exists m td lo hi rg,
    py_max_Q (map (fun n => n_start n + n_dur n)%Q
      example_notes) = Some m
    /\ In m (map (fun n => n_start n + n_dur n)%Q
      example_notes)
    /\ (forall n, In n example_notes -> n_start n + n_dur n <= m)%Q
    /\ total_duration example_notes = Some td
    /\ td = (if Qeq_bool m 0 then 1%Q else m)
    /\ (forall n, In n example_notes -> n_start n + n_dur n <= td)%Q
    /\ min_note example_notes = Some lo
    /\ max_note example_notes = Some hi
    /\ (forall n, In n example_notes -> lo <= n_note n <= hi)
    /\ note_range example_notes = Some rg
    /\ rg = Z.max (hi - lo) 1 /\ 1 <= rg.
Proof. apply scene_extents_bounds. discriminate. Defined.

(** ** Pipeline: claims *)

(** C2: when the reconstructed interval collection is empty, the result is
    [Image.new('RGB', (img_width, img_height), bg_color)] itself, with no
    renderer, blur or vignette applied (the generator is untouched too):
    its size is the requested one and every pixel is the background. *)
Theorem empty_notes_blank_canvas :
  forall rng randint draw_prim smooth_more gaussian_blur msgs cfg (r : rng),
    music_notes (collect_events 0 msgs) = [] ->
    midi_to_artistic rng randint draw_prim smooth_more gaussian_blur msgs cfg r
      = Some (image_new (img_width cfg) (img_height cfg) (bg_color cfg), r)
    /\ iw (image_new (img_width cfg) (img_height cfg) (bg_color cfg)) = img_width cfg
    /\ ih (image_new (img_width cfg) (img_height cfg) (bg_color cfg)) = img_height cfg
    /\ forall x y, ipx (image_new (img_width cfg) (img_height cfg) (bg_color cfg)) x y
                   = bg_color cfg.
Proof.
  intros rng randint draw_prim smooth_more gaussian_blur msgs cfg r H.
  unfold midi_to_artistic. rewrite H. repeat split.
Qed.

(** C2 on a stream whose only note is struck and released at once. *)
Lemma empty_notes_blank_canvas_witness :
  midi_to_artistic unit (fun _ _ _ => (0, tt)) (fun _ img => img) (fun img => img)
    (fun _ img => img)
    [Msg false "note_on" 60 100 0; Msg false "note_off" 60 0 0]
    (Config 2000 500 (15, 15, 25) "classic" "hsv" true (1 # 2) (7 # 10)) tt
  = Some (image_new 2000 500 (15, 15, 25), tt)
  /\ iw (image_new 2000 500 (15, 15, 25)) = 2000
  /\ ih (image_new 2000 500 (15, 15, 25)) = 500
  /\ forall x y, ipx (image_new 2000 500 (15, 15, 25)) x y = (15, 15, 25).
Proof.
  apply (empty_notes_blank_canvas unit (fun _ _ _ => (0, tt)) (fun _ img => img)
           (fun img => img) (fun _ img => img)
           [Msg false "note_on" 60 100 0; Msg false "note_off" 60 0 0]
           (Config 2000 500 (15, 15, 25) "classic" "hsv" true (1 # 2) (7 # 10)) tt).
  vm_compute. reflexivity.
Defined.

(** C7: the colour mapper is a function of its arguments only: two calls
    with the same palette, pitch and velocity give the same RGB triple. *)
Theorem get_color_deterministic :
  forall palette1 palette2 note1 note2 velocity1 velocity2,
    palette1 = palette2 -> note1 = note2 -> velocity1 = velocity2 ->
    get_color palette1 note1 velocity1 = get_color palette2 note2 velocity2.
Proof. intros. by subst. Qed.

Lemma get_color_deterministic_witness :
  get_color "fire" 61 64 = get_color "fire" 61 64.
Proof. apply get_color_deterministic; reflexivity. Defined.

(** ** Fallbacks for unknown configuration values *)

Ltac not_listed H :=
  match goal with
  | |- context [String.eqb ?s ?k] =>
      destruct (String.eqb_spec s k) as [->|_]; [exfalso; apply H; simpl; tauto|]
  end.

Lemma extents_some notes :
  notes <> [] ->
  exists td mn rg, total_duration notes = Some td /\ min_note notes = Some mn
                   /\ note_range notes = Some rg.
Proof. destruct notes; [done|]. intros _. eauto 6. Qed.

Lemma Qle_bool_drop y d : (0 < d)%Q -> Qle_bool y (y - d) = false.
Proof.
  intros Hd. destruct (Qle_bool y (y - d)) eqn:E; [|done].
  apply Qle_bool_iff in E. lra.
Qed.

(** The first call of the classic renderer is always rejected. *)
Lemma classic_draw_none draw_prim notes width height gc td mn rg :
  notes <> [] -> create_classic_style draw_prim notes width height gc td mn rg = None.
Proof.
  intros Hne. destruct notes as [|n ns]; [done|].
  unfold create_classic_style, classic_cmds. cbn [map draw_all pil_box_ok].
  rewrite (Qle_bool_drop _ 20) by lra. rewrite andb_false_r. reflexivity.
Qed.

Lemma midi_to_artistic_fails rng randint draw_prim smooth_more gaussian_blur msgs cfg
    (r : rng) notes :
  music_notes (collect_events 0 msgs) = notes -> notes <> [] ->
  (forall td mn rg, render_style rng randint draw_prim smooth_more (style cfg) notes
     (img_width cfg) (img_height cfg) (get_color (palette cfg)) td mn rg r = None) ->
  midi_to_artistic rng randint draw_prim smooth_more gaussian_blur msgs cfg r = None.
Proof.
  intros En Hne Hr. unfold midi_to_artistic. rewrite En.
  destruct (extents_some notes Hne) as (td & mn & rg & E1 & E2 & E3).
  destruct notes as [|n ns]; [done|]. rewrite E1, E2, E3, Hr. reflexivity.
Qed.


(** C8 (code bug): an unrecognised palette name gives the grey
    (200,200,200); an unrecognised style name renders exactly as
    [classic]; but that rendering is fatal: with an unrecognised style,
    every input that yields an interval makes [midi_to_artistic] raise (the
    classic renderer's inverted rectangle, see C5). *)
Theorem unknown_style_raises :
  (forall palette note velocity, ~ In palette palettes ->
     get_color palette note velocity = (200, 200, 200))
  /\ (forall rng randint draw_prim smooth_more style notes width height get_color
             total_duration min_note note_range (r : rng),
        ~ In style styles ->
        render_style rng randint draw_prim smooth_more style notes width height get_color
          total_duration min_note note_range r
        = with_rng (create_classic_style draw_prim notes width height get_color
                      total_duration min_note note_range) r)
  /\ (forall rng randint draw_prim smooth_more gaussian_blur msgs cfg (r : rng),
        ~ In (style cfg) styles -> music_notes (collect_events 0 msgs) <> [] ->
        midi_to_artistic rng randint draw_prim smooth_more gaussian_blur msgs cfg r = None).
Proof.
  split; [|split].
  - intros palette note velocity H. unfold get_color. repeat not_listed H. reflexivity.
  - intros rng randint draw_prim smooth_more style notes width height gc td mn rg r H.
    unfold render_style. repeat not_listed H. reflexivity.
  - intros rng randint draw_prim smooth_more gaussian_blur msgs cfg r H Hne.
    apply (midi_to_artistic_fails _ _ _ _ _ _ _ _ _ eq_refl Hne).
    intros td mn rg. unfold render_style. remember (style cfg) as st.
    repeat not_listed H. cbn -[create_classic_style]. by rewrite classic_draw_none.
Qed.

Lemma unknown_style_raises_witness :
  get_color "magenta" 60 100 = (200, 200, 200)
  /\ render_style unit (fun _ _ _ => (0, tt)) (fun _ img => img) (fun img => img)
       "cubist" [NoteIv 60 0 1 100] 1000 300 (get_color "hsv") 1 60 1 tt
     = with_rng (create_classic_style (fun _ img => img) [NoteIv 60 0 1 100] 1000 300
                   (get_color "hsv") 1 60 1) tt
  /\ midi_to_artistic unit (fun _ _ _ => (0, tt)) (fun _ img => img) (fun img => img)
       (fun _ img => img)
       [Msg false "note_on" 60 100 0; Msg false "note_off" 60 0 1]
       (Config 2000 500 (15, 15, 25) "cubist" "hsv" true (1 # 2) (7 # 10)) tt
     = None.
Proof.
  split; [|split].
  - apply (proj1 unknown_style_raises). simpl. intuition discriminate.
  - apply (proj1 (proj2 unknown_style_raises)). simpl. intuition discriminate.
  - apply (proj2 (proj2 unknown_style_raises)).
    + simpl. intuition discriminate.
    + vm_compute. discriminate.
Defined.

(** ** Vignette: lemmas and claim *)

Lemma py_int_mul_0 x : py_int (x * 0) = 0.
Proof.
  destruct x as [a b]. unfold py_int, Qmult. cbn [Qnum Qden].
  rewrite Z.mul_0_r. reflexivity.
Qed.

Lemma vignette_alpha_0 max_border i : vignette_alpha max_border i 0 = 0.
Proof. apply py_int_mul_0. Qed.

Lemma vignette_layer_0 width height x y : vignette_layer width height 0 x y = (0, 0, 0, 0).
Proof.
  unfold vignette_layer.
  assert (Hfold : forall l (acc : rgba), acc = (0, 0, 0, 0) ->
    fold_left (fun acc i =>
                 if on_outline i width height x y
                 then (0, 0, 0, vignette_alpha (Z.min width height / 3) i 0) else acc)
              l acc = (0, 0, 0, 0)).
  { induction l as [|i l IH]; intros acc ->; simpl; [done|].
    apply IH. destruct (on_outline i width height x y); [|done].
    by rewrite vignette_alpha_0. }
  by apply Hfold.
Qed.

(** C9: with [intensity = 0] the vignette step is the identity: after the
    RGB -> RGBA -> RGB round trip every pixel, and the size, is unchanged. *)
Theorem vignette_zero_identity :
  forall img,
    iw (apply_vignette img 0) = iw img /\ ih (apply_vignette img 0) = ih img
    /\ forall x y, ipx (apply_vignette img 0) x y = ipx img x y.
Proof.
  intros img. split; [done|]. split; [done|]. intros x y. simpl.
  rewrite vignette_layer_0. destruct (ipx img x y) as [[r g] b]. reflexivity.
Qed.

(** ** Renderer geometry: claims *)

(** C4, counterexample: the watercolor renderer does not place notes by
    [height - ((p - minPitch) / pitchRange) * (height - m)] for any margin
    [m]: at [p = minPitch] it gives [height - 50], not [height]. *)
Lemma watercolor_y_not_spec_form :
  ~ (exists m : Z, 50 <= m <= 100 /\
       forall height min_note note_range note,
         (watercolor_y height min_note note_range note
          == spec_pitch_to_y m height min_note note_range note)%Q).
Proof.
  intros (m & _ & H). specialize (H 300 60 7 60).
  unfold watercolor_y, spec_pitch_to_y, Qeq in H. simpl in H. lia.
Qed.

(** C4, as the code has it: classic, neon, particles and geometric use
    [pitchToY] with margin 50; watercolor uses margin 100 and sits 50 px
    higher: [height - 50 - ((p - minPitch) / pitchRange) * (height - 100)]. *)
Theorem renderer_pitch_to_y :
  forall height min_note note_range note,
    classic_y height min_note note_range note = spec_pitch_to_y 50 height min_note note_range note
    /\ neon_y height min_note note_range note = spec_pitch_to_y 50 height min_note note_range note
    /\ particle_y height min_note note_range note
       = spec_pitch_to_y 50 height min_note note_range note
    /\ geometric_y height min_note note_range note
       = spec_pitch_to_y 50 height min_note note_range note
    /\ (watercolor_y height min_note note_range note
        == spec_pitch_to_y 100 height min_note note_range note - 50)%Q.
Proof.
  intros. repeat split. unfold watercolor_y, spec_pitch_to_y. ring.
Qed.

(** C5 (code bug): for the first interval the classic renderer calls
    [draw.rectangle([x1, y1, x2, y1 - 20])], whose second y lies 20 pixels
    above the first.  Pillow rejects that box with [ValueError], so
    [create_classic_style] draws nothing and raises on every non-empty
    collection, and [midi_to_artistic] raises with the default style
    [classic] on every input that yields an interval. *)
Theorem classic_style_raises :
  (forall draw_prim notes width height get_color total_duration min_note note_range,
     notes <> [] ->
     create_classic_style draw_prim notes width height get_color total_duration
       min_note note_range = None)
  /\ (forall rng randint draw_prim smooth_more gaussian_blur msgs cfg (r : rng),
        style cfg = "classic" -> music_notes (collect_events 0 msgs) <> [] ->
        midi_to_artistic rng randint draw_prim smooth_more gaussian_blur msgs cfg r = None).
Proof.
  split.
  - intros. by apply classic_draw_none.
  - intros rng randint draw_prim smooth_more gaussian_blur msgs cfg r Hs Hne.
    apply (midi_to_artistic_fails _ _ _ _ _ _ _ _ _ eq_refl Hne).
    intros td mn rg. unfold render_style. rewrite Hs. cbn -[create_classic_style].
    by rewrite classic_draw_none.
Qed.

Lemma classic_style_raises_witness :
  create_classic_style (fun _ img => img) example_notes 1000 300 (get_color "hsv") 2 60 7
  = None
  /\ midi_to_artistic unit (fun _ _ _ => (0, tt)) (fun _ img => img) (fun img => img)
       (fun _ img => img)
       [Msg false "note_on" 60 100 0; Msg false "note_off" 60 0 1]
       (Config 2000 500 (15, 15, 25) "classic" "hsv" true (1 # 2) (7 # 10)) tt
     = None.
Proof.
  split.
  - apply (proj1 classic_style_raises). discriminate.
  - apply (proj2 classic_style_raises); [reflexivity|]. vm_compute. discriminate.
Defined.

(** ** Neon glow: claim *)

(** C6, counterexample: for a note of the spec's example, the first glow
    line is wider than the second but has the smaller alpha (0 against
    255): the alpha does not decrease along the glow lines. *)
Lemma neon_glow_alpha_not_decreasing :
  match neon_note_cmds 1000 300 (get_color "hsv") 2 60 7 (NoteIv 60 0 1 100) with
  | DLine _ _ _ _ (Col4 _ a1) w1 :: DLine _ _ _ _ (Col4 _ a2) w2 :: _ =>
      w2 < w1 /\ a1 < a2
  | _ => False
  end.
Proof. vm_compute. split; reflexivity. Qed.

Lemma glow_alpha_values r : 1 <= r <= 9 -> glow_alpha r = 255.
Proof.
  intros Hr.
  assert (r = 1 \/ r = 2 \/ r = 3 \/ r = 4 \/ r = 5 \/ r = 6 \/ r = 7 \/ r = 8 \/ r = 9)
    as Hc by lia.
  repeat destruct Hc as [->|Hc]; try (subst r); vm_compute; reflexivity.
Qed.

(** C6, as the code has it: per interval, 10 glow lines on the note's
    segment at [pitchToY] (margin 50), in the note's colour with an alpha,
    for [r = 10, 9, ..., 1] with width [2 r] (strictly decreasing, 20 down
    to 2), then one 3-pixel core line in the note's colour; the alpha does
    not decrease from one glow line to the next (it is 0 on the widest line
    and grows as the lines narrow). *)
Theorem neon_glow_lines :
  (forall notes width height get_color total_duration min_note note_range,
     neon_cmds notes width height get_color total_duration min_note note_range
     = flat_map (fun n =>
         let x1 := inject_Z (py_int (spec_time_to_x (n_start n) total_duration width)) in
         let x2 := inject_Z (py_int (spec_time_to_x (n_start n + n_dur n)
                                       total_duration width)) in
         let y := spec_pitch_to_y 50 height min_note note_range (n_note n) in
         let c := get_color (n_note n) (n_vel n) in
         map (fun r => DLine x1 y x2 y (Col4 c (glow_alpha r)) (r * 2))
             [10; 9; 8; 7; 6; 5; 4; 3; 2; 1]
         ++ [DLine x1 y x2 y (Col3 c) 3]) notes)
  /\ map (fun r => r * 2) [10; 9; 8; 7; 6; 5; 4; 3; 2; 1]
     = [20; 18; 16; 14; 12; 10; 8; 6; 4; 2]
  /\ glow_alpha 10 = 0
  /\ (forall r, 1 <= r <= 9 -> glow_alpha (r + 1) <= glow_alpha r).
Proof.
  split; [reflexivity|]. split; [reflexivity|]. split; [reflexivity|].
  intros r Hr. rewrite (glow_alpha_values r Hr).
  destruct (Z.eq_dec r 9) as [->|Hne]; [vm_compute; discriminate|].
  rewrite glow_alpha_values by lia. lia.
Qed.

Lemma neon_glow_lines_witness : glow_alpha (3 + 1) <= glow_alpha 3.
Proof. apply (proj2 (proj2 (proj2 neon_glow_lines)) 3). lia. Defined.

(** ** Colour mapper: further properties *)

Lemma get_color_mod12 palette note velocity :
  get_color palette note velocity = get_color palette (note mod 12) velocity.
Proof. unfold get_color. rewrite Zmod_mod. reflexivity. Qed.

Lemma get_color_unlisted palette note velocity :
  ~ In palette palettes -> get_color palette note velocity = (200, 200, 200).
Proof. intros H. unfold get_color. repeat not_listed H. reflexivity. Qed.

Lemma in_py_range a b k : a <= k < b -> In k (py_range a b).
Proof.
  intros Hk. unfold py_range. apply in_map_iff.
  exists (Z.to_nat (k - a)). split; [lia|]. apply in_seq. lia.
Qed.

Lemma all_colors_ok_true : all_colors_ok = true.
Proof. vm_compute. reflexivity. Qed.

(** For a MIDI velocity (0..127), every palette, named or not, and every
    pitch, each channel of [get_color] lies in 0..255. *)
Theorem get_color_channels_bytes :
  forall palette n v, 0 <= v <= 127 ->
    channel_ok (get_color palette n v) = true.
Proof.
  intros palette n v Hv.
  destruct (in_dec String.string_dec palette palettes) as [Hp|Hp].
  - rewrite get_color_mod12.
    pose proof all_colors_ok_true as H. unfold all_colors_ok in H.
    rewrite forallb_forall in H. specialize (H _ Hp).
    rewrite forallb_forall in H. specialize (H (n mod 12)).
    rewrite forallb_forall in H. apply H.
    + apply in_py_range. pose proof (Z.mod_pos_bound n 12). lia.
    + apply in_py_range. lia.
  - by rewrite get_color_unlisted.
Qed.

Lemma get_color_channels_bytes_witness : channel_ok (get_color "sunset" 71 127) = true.
Proof. apply get_color_channels_bytes. lia. Defined.

(** The colour of a note depends on its pitch class only: moving a note by
    any number of octaves keeps its colour, for every palette. *)
Theorem get_color_octave_invariant :
  forall palette n k v,
    get_color palette (n + 12 * k) v = get_color palette n v.
Proof.
  intros palette n k v. rewrite (get_color_mod12 _ n), get_color_mod12.
  f_equal. rewrite Z.mul_comm. apply Z_mod_plus_full.
Qed.

(** In the lookup palettes (ocean, forest, sunset) a sharp takes the colour
    of the natural note a semitone below it (C# as C, D# as D, ...). *)
Theorem get_color_sharp_as_natural :
  forall palette n v,
    In palette ["ocean"; "forest"; "sunset"] ->
    In (n mod 12) [1; 3; 6; 8; 10] ->
    get_color palette n v = get_color palette (n - 1) v.
Proof.
  intros palette n v Hp Hn.
  rewrite (get_color_mod12 _ n), (get_color_mod12 _ (n - 1)).
  replace ((n - 1) mod 12) with (n mod 12 - 1).
  2:{ rewrite Zminus_mod. simpl in Hn.
      destruct Hn as [H|[H|[H|[H|[H|[]]]]]]; rewrite <- H; reflexivity. }
  simpl in Hp, Hn.
  destruct Hp as [<-|[<-|[<-|[]]]];
    destruct Hn as [<-|[<-|[<-|[<-|[<-|[]]]]]]; reflexivity.
Qed.

Lemma get_color_sharp_as_natural_witness :
  get_color "ocean" 61 90 = get_color "ocean" (61 - 1) 90.
Proof. apply get_color_sharp_as_natural; simpl; auto. Defined.

(** ** Event extraction: further properties *)

(** Meta messages play no part at all: dropping them from the stream leaves
    the events, their times included, unchanged (their delta times are never
    added to [current_time]). *)
Theorem collect_events_ignores_meta :
  forall msgs t0,
    collect_events t0 (List.filter (fun m => negb (is_meta m)) msgs) = collect_events t0 msgs.
Proof.
  induction msgs as [|m ms IH]; intros t0; [done|].
  cbn [List.filter]. destruct (is_meta m) eqn:E; cbn [negb].
  - cbn [collect_events]. rewrite E. apply IH.
  - cbn [collect_events]. rewrite E, !IH. reflexivity.
Qed.

Lemma chrono_from_le t evs e : chrono_from t evs = true -> In e evs -> (t <= ev_time e)%Q.
Proof.
  revert t. induction evs as [|e' es IH]; intros t H Hin; [done|].
  simpl in H. apply andb_prop in H as [H1 H2]. apply Qle_bool_iff in H1.
  destruct Hin as [<-|Hin]; [done|]. eapply Qle_trans; [exact H1|]. eauto.
Qed.

(** With non-negative delta times, the events are in chronological order,
    all at or after the starting time; each start event has a positive
    velocity; and there is at most one event per message. *)
Theorem collect_events_chronological :
  forall msgs t0,
    (forall m, In m msgs -> is_meta m = false -> (0 <= mtime m)%Q) ->
    chrono_from t0 (collect_events t0 msgs) = true
    /\ (forall e, In e (collect_events t0 msgs) -> (t0 <= ev_time e)%Q)
    /\ (forall e, In e (collect_events t0 msgs) -> ev_typ e = Start -> 0 < ev_vel e)
    /\ (length (collect_events t0 msgs) <= length msgs)%nat.
Proof.
  intros msgs t0 Hm.
  assert (Hc : chrono_from t0 (collect_events t0 msgs) = true).
  { revert t0. induction msgs as [|m ms IH]; intros t0; [done|]. simpl.
    assert (Hms : forall m', In m' ms -> is_meta m' = false -> (0 <= mtime m')%Q)
      by (intros; apply Hm; simpl; auto).
    destruct (is_meta m) eqn:Em; [by apply IH|].
    assert (Hle : Qle_bool t0 (t0 + mtime m) = true).
    { apply Qle_bool_iff. specialize (Hm m (or_introl eq_refl) Em). lra. }
    destruct (_ && _); [simpl; rewrite Hle; by apply IH|].
    destruct (_ || _); [simpl; rewrite Hle; by apply IH|].
    specialize (IH Hms (t0 + mtime m)%Q).
    destruct (collect_events (t0 + mtime m)%Q ms) as [|e es] eqn:Ec; [done|].
    simpl in IH |- *. apply andb_prop in IH as [H1 H2]. apply Qle_bool_iff in H1.
    rewrite H2, andb_true_r. apply Qle_bool_iff. apply Qle_bool_iff in Hle. lra. }
  split; [exact Hc|]. split; [intros e; by apply chrono_from_le|]. split.
  - clear Hm Hc. revert t0. induction msgs as [|m ms IH]; intros t0; simpl; [done|].
    destruct (is_meta m); [apply IH|].
    destruct (String.eqb (mtype m) "note_on" && (0 <? velocity m)) eqn:E.
    + intros e [<-|Hin]; [|exact (IH _ e Hin)]. intros _. simpl.
      apply andb_prop in E as [_ E]. lia.
    + destruct (_ || _); [|apply IH].
      intros e [<-|Hin]; [discriminate|]. exact (IH _ e Hin).
  - clear Hm Hc. revert t0. induction msgs as [|m ms IH]; intros t0; simpl; [lia|].
    destruct (is_meta m); [specialize (IH t0); lia|].
    destruct (_ && _); [simpl; specialize (IH (t0 + mtime m)%Q); lia|].
    destruct (_ || _); [simpl|]; specialize (IH (t0 + mtime m)%Q); lia.
Qed.

Lemma collect_events_chronological_witness :
  chrono_from 0 (collect_events 0 [Msg false "note_on" 60 100 (1 # 2)]) = true
  /\ (forall e, In e (collect_events 0 [Msg false "note_on" 60 100 (1 # 2)]) ->
                (0 <= ev_time e)%Q)
  /\ (forall e, In e (collect_events 0 [Msg false "note_on" 60 100 (1 # 2)]) ->
                ev_typ e = Start -> 0 < ev_vel e)
  /\ (length (collect_events 0 [Msg false "note_on" 60 100 (1 # 2)])
      <= length [Msg false "note_on" 60 100 (1 # 2)])%nat.
Proof.
  apply collect_events_chronological.
  intros m [<-|[]] _. discriminate.
Defined.

(** ** Interval builder: further properties *)

Lemma ssorted_snoc {A} (R : A -> A -> Prop) l x :
  StronglySorted R l -> Forall (fun y => R y x) l -> StronglySorted R (l ++ [x]).
Proof.
  induction l as [|a l IH]; intros Hs Hf; simpl.
  - repeat constructor.
  - inversion Hs as [|? ? Hs' Ha]; subst. inversion Hf as [|? ? Hax Hf']; subst.
    constructor; [by apply IH|]. apply Forall_app. split; [done|]. by constructor.
Qed.

(** One step keeps the ordering invariants of the builder's state, given a
    bound [T] on all earlier event times that the new event respects. *)
Lemma step_order_inv act out e T :
  (T <= ev_time e)%Q ->
  (forall iv, In iv out -> n_end iv <= T)%Q ->
  (forall p t0 v0, act !! p = Some (t0, v0) -> t0 <= T)%Q ->
  (forall p t0 v0 iv, act !! p = Some (t0, v0) -> In iv out -> n_note iv = p ->
                      n_end iv <= t0)%Q ->
  StronglySorted (fun a b => n_end a <= n_end b)%Q out ->
  StronglySorted (fun a b => n_note a = n_note b -> n_end a <= n_start b)%Q out ->
  let '(act', out') := step (act, out) e in
  (forall iv, In iv out' -> n_end iv <= ev_time e)%Q
  /\ (forall p t0 v0, act' !! p = Some (t0, v0) -> t0 <= ev_time e)%Q
  /\ (forall p t0 v0 iv, act' !! p = Some (t0, v0) -> In iv out' -> n_note iv = p ->
                         n_end iv <= t0)%Q
  /\ StronglySorted (fun a b => n_end a <= n_end b)%Q out'
  /\ StronglySorted (fun a b => n_note a = n_note b -> n_end a <= n_start b)%Q out'.
Proof.
  intros HT H1 H2 H3 H4 H5. unfold step.
  destruct (ev_typ e).
  - split; [intros iv Hiv; specialize (H1 iv Hiv); lra|].
    split; [|split; [|done]].
    + intros p t0 v0. rewrite lookup_insert. case_decide.
      * intros Heq. injection Heq as <- <-. lra.
      * intros Ha. specialize (H2 _ _ _ Ha). lra.
    + intros p t0 v0 iv. rewrite lookup_insert. case_decide.
      * intros Heq Hiv _. injection Heq as <- <-. specialize (H1 iv Hiv). lra.
      * intros Ha. apply H3 with (1 := Ha).
  - destruct (act !! ev_note e) as [[s0 w0]|] eqn:Ea.
    + assert (Hdel2 : forall p t0 v0, delete (ev_note e) act !! p = Some (t0, v0) ->
                        (t0 <= ev_time e)%Q).
      { intros p t0 v0. rewrite lookup_delete. case_decide; [discriminate|].
        intros Ha. specialize (H2 _ _ _ Ha). lra. }
      destruct (Qltb 0 (ev_time e - s0)).
      * split; [|split; [exact Hdel2|split]].
        -- intros iv Hiv. apply in_app_or in Hiv as [Hiv|[<-|[]]].
           ++ specialize (H1 iv Hiv). lra.
           ++ unfold n_end. simpl. lra.
        -- intros p t0 v0 iv. rewrite lookup_delete. case_decide; [discriminate|].
           intros Ha Hiv Hn. apply in_app_or in Hiv as [Hiv|[<-|[]]].
           ++ exact (H3 _ _ _ _ Ha Hiv Hn).
           ++ simpl in Hn. congruence.
        -- split.
           ++ apply ssorted_snoc; [done|]. apply List.Forall_forall. intros iv Hiv.
              specialize (H1 iv Hiv). unfold n_end at 2. simpl. lra.
           ++ apply ssorted_snoc; [done|]. apply List.Forall_forall. intros iv Hiv Hn.
              simpl in Hn |- *. exact (H3 _ _ _ _ Ea Hiv Hn).
      * split; [intros iv Hiv; specialize (H1 iv Hiv); lra|].
        split; [exact Hdel2|]. split; [|done].
        intros p t0 v0 iv. rewrite lookup_delete. case_decide; [discriminate|].
        intros Ha. apply H3 with (1 := Ha).
    + split; [intros iv Hiv; specialize (H1 iv Hiv); lra|].
      split; [intros p t0 v0 Ha; specialize (H2 _ _ _ Ha); lra|]. done.
Qed.

Lemma fold_order_inv evs act out T :
  chrono_from T evs = true ->
  (forall iv, In iv out -> n_end iv <= T)%Q ->
  (forall p t0 v0, act !! p = Some (t0, v0) -> t0 <= T)%Q ->
  (forall p t0 v0 iv, act !! p = Some (t0, v0) -> In iv out -> n_note iv = p ->
                      n_end iv <= t0)%Q ->
  StronglySorted (fun a b => n_end a <= n_end b)%Q out ->
  StronglySorted (fun a b => n_note a = n_note b -> n_end a <= n_start b)%Q out ->
  StronglySorted (fun a b => n_end a <= n_end b)%Q (snd (fold_left step evs (act, out)))
  /\ StronglySorted (fun a b => n_note a = n_note b -> n_end a <= n_start b)%Q
       (snd (fold_left step evs (act, out))).
Proof.
  revert act out T. induction evs as [|e es IH]; intros act out T Hc H1 H2 H3 H4 H5.
  - simpl. auto.
  - simpl in Hc. apply andb_prop in Hc as [HT Hc]. apply Qle_bool_iff in HT.
    cbn [fold_left]. pose proof (step_order_inv act out e T HT H1 H2 H3 H4 H5) as Hs.
    destruct (step (act, out) e) as [act' out'].
    destruct Hs as (G1 & G2 & G3 & G4 & G5). eapply IH; eauto.
Qed.

Lemma fold_positive_inv evs act out T :
  (forall e, In e evs -> T <= ev_time e)%Q ->
  (forall iv, In iv out -> 0 < n_dur iv /\ T <= n_start iv)%Q ->
  (forall p t0 v0, act !! p = Some (t0, v0) -> T <= t0)%Q ->
  (forall iv, In iv (snd (fold_left step evs (act, out))) -> 0 < n_dur iv /\ T <= n_start iv)%Q.
Proof.
  revert act out. induction evs as [|e es IH]; intros act out He H1 H2; [exact H1|].
  cbn [fold_left].
  assert (HTe : (T <= ev_time e)%Q) by (apply He; left; done).
  assert (He' : forall e', In e' es -> (T <= ev_time e')%Q) by (intros; apply He; right; done).
  unfold step. destruct (ev_typ e).
  - apply IH; [done|done|]. intros p t0 v0. rewrite lookup_insert. case_decide.
    + intros Heq. by injection Heq as <- <-.
    + apply H2.
  - destruct (act !! ev_note e) as [[s0 w0]|] eqn:Ea; [|by apply IH].
    apply IH; [done| |].
    + destruct (Qltb 0 (ev_time e - s0)) eqn:Hpos; [|done].
      intros iv Hiv. apply in_app_or in Hiv as [Hiv|[<-|[]]]; [by apply H1|].
      apply Qltb_iff in Hpos. simpl. split; [done|]. exact (H2 _ _ _ Ea).
    + intros p t0 v0. rewrite lookup_delete. case_decide; [discriminate|]. apply H2.
Qed.

Lemma ssorted_weaken {A} (P Q : A -> A -> Prop) (l : list A) :
  (forall a b, In a l -> In b l -> P a b -> Q a b) ->
  StronglySorted P l -> StronglySorted Q l.
Proof.
  intros HPQ HS. induction HS as [|a l HS IH HF]; constructor.
  - apply IH. intros x y Hx Hy. apply HPQ; right; done.
  - apply List.Forall_forall. intros b Hb. apply HPQ; [left; done|right; done|].
    exact (proj1 (List.Forall_forall _ _) HF b Hb).
Qed.

(** For chronological events, two intervals of the same pitch come out in
    order of their starts, the later one starting strictly after the
    earlier one: its start event follows the end event that closed the
    earlier interval, and that end time exceeds the earlier start since
    [time - start_time > 0]. *)
Theorem music_notes_same_pitch_ordered :
  forall evs, chronological evs = true ->
    StronglySorted (fun a b => n_note a = n_note b -> n_start a < n_start b)%Q
      (music_notes evs).
Proof.
  intros [|e es] Hc; [constructor|].
  assert (Hact : forall p t0 v0, (∅ : active) !! p = Some (t0, v0) -> False)
    by (intros p t0 v0 Hl; rewrite lookup_empty in Hl; discriminate).
  destruct (fold_order_inv (e :: es) ∅ [] (ev_time e) Hc) as [_ Hord];
    [intros ? []
    |intros p t0 v0 Hl; destruct (Hact _ _ _ Hl)
    |intros p t0 v0 iv Hl; destruct (Hact _ _ _ Hl)
    |constructor|constructor|].
  refine (ssorted_weaken _ _ _ _ Hord).
  intros a b Ha _ Hab Hn. specialize (Hab Hn).
  destruct (fold_positive_inv (e :: es) ∅ [] (ev_time e)
              (fun e' He' => chrono_from_le _ _ _ Hc He')
              ltac:(intros ? []) ltac:(intros p t0 v0 Hl; destruct (Hact _ _ _ Hl))
              a Ha) as [Hd _].
  unfold n_end in Hab. lra.
Qed.

Lemma music_notes_same_pitch_ordered_witness :
  StronglySorted (fun a b => n_note a = n_note b -> n_start a < n_start b)%Q
    (music_notes [Event 0 60 100 Start; Event 1 60 0 End;
                  Event 1 60 90 Start; Event 2 60 0 End]).
Proof. apply music_notes_same_pitch_ordered. vm_compute. reflexivity. Defined.

(** Every interval has a strictly positive duration, and starts no earlier
    than any lower bound of the event times (so at a time >= 0 for the
    events of a decoded stream). *)
Theorem music_notes_positive :
  forall evs T, (forall e, In e evs -> T <= ev_time e)%Q ->
    forall iv, In iv (music_notes evs) -> (0 < n_dur iv /\ T <= n_start iv)%Q.
Proof.
  intros evs T He. apply fold_positive_inv; [done|intros ? []|].
  intros p t0 v0 H. rewrite lookup_empty in H. discriminate.
Qed.

Lemma music_notes_positive_witness :
  (0 < n_dur (NoteIv 60 0 1 100) /\ 0 <= n_start (NoteIv 60 0 1 100))%Q.
Proof.
  apply (music_notes_positive [Event 0 60 100 Start; Event 1 60 0 End] 0).
  - intros e [<-|[<-|[]]]; vm_compute; discriminate.
  - vm_compute. left. reflexivity.
Defined.

Lemma step_length act out e :
  (length (snd (step (act, out) e)) <= length out + (if is_end e then 1 else 0))%nat.
Proof.
  unfold step, is_end. destruct (ev_typ e); cbn [snd]; [lia|].
  destruct (act !! ev_note e) as [[s0 w0]|]; cbn [snd]; [|lia].
  destruct (Qltb 0 (ev_time e - s0)); [rewrite length_app; simpl|]; lia.
Qed.

Lemma fold_length_le evs st :
  (length (snd (fold_left step evs st)) <= length (snd st) + length (List.filter is_end evs))%nat.
Proof.
  revert st. induction evs as [|e es IH]; intros [act out]; [simpl; lia|].
  cbn [fold_left List.filter]. specialize (IH (step (act, out) e)).
  pose proof (step_length act out e) as Hs.
  destruct (is_end e); cbn [length snd] in IH, Hs |- *; lia.
Qed.

(** The builder emits at most one interval per end event. *)
Theorem music_notes_at_most_ends :
  forall evs, (length (music_notes evs) <= length (List.filter is_end evs))%nat.
Proof. intros evs. apply (fold_length_le evs (∅, [])). Qed.

(** ** Renderer coordinates: bounds *)

Lemma Qfloor_nonneg q : (0 <= q)%Q -> 0 <= Qfloor q.
Proof. intros H. apply (Qfloor_resp_le 0 q) in H. exact H. Qed.

Lemma py_int_mono q1 q2 : (q1 <= q2)%Q -> py_int q1 <= py_int q2.
Proof.
  intros H. unfold py_int.
  destruct (Qle_bool 0 q1) eqn:E1; destruct (Qle_bool 0 q2) eqn:E2.
  - by apply Qfloor_resp_le.
  - apply Qle_bool_iff in E1. assert (Hn : ~ (0 <= q2)%Q).
    { intros Hq. apply Qle_bool_iff in Hq. congruence. }
    exfalso. apply Hn. lra.
  - apply Qle_bool_iff in E2. assert (Hn : ~ (0 <= q1)%Q).
    { intros Hq. apply Qle_bool_iff in Hq. congruence. }
    apply Qnot_le_lt in Hn.
    pose proof (Qfloor_nonneg q2 E2).
    assert (Hq : (0 <= - q1)%Q) by lra. pose proof (Qfloor_nonneg (- q1) Hq). lia.
  - assert (Hm : (- q2 <= - q1)%Q) by lra. apply Qfloor_resp_le in Hm. lia.
Qed.

Lemma py_int_Z z : py_int (inject_Z z) = z.
Proof.
  unfold py_int. destruct (Qle_bool 0 (inject_Z z)).
  - apply Qfloor_Z.
  - change (- inject_Z z)%Q with (inject_Z (- z)). rewrite Qfloor_Z. lia.
Qed.

Lemma inject_Z_sub a b : (inject_Z (a - b) == inject_Z a - inject_Z b)%Q.
Proof. unfold Qeq, inject_Z. simpl. lia. Qed.

Lemma ratio_unit a b : 0 <= a <= b -> 0 < b ->
  (0 <= inject_Z a / inject_Z b <= 1)%Q.
Proof.
  intros Hab Hb. assert (Hb' : (inject_Z 0 < inject_Z b)%Q) by (rewrite <- Zlt_Qlt; done).
  split.
  - apply Qle_shift_div_l; [done|]. rewrite Qmult_0_l.
    change 0%Q with (inject_Z 0). rewrite <- Zle_Qle. lia.
  - apply Qle_shift_div_r; [done|]. rewrite Qmult_1_l. rewrite <- Zle_Qle. lia.
Qed.

Lemma x_of_bounds notes td width :
  0 <= width ->
  (forall n, In n notes -> 0 <= n_start n /\ 0 < n_dur n)%Q ->
  total_duration notes = Some td ->
  forall n, In n notes ->
    0 <= x_of (n_start n) td width
    /\ x_of (n_start n) td width <= x_of (n_start n + n_dur n)%Q td width
    /\ x_of (n_start n + n_dur n)%Q td width <= width.
Proof.
  intros Hw Hn Htd n Hin.
  destruct notes as [|n0 ns]; [discriminate|].
  unfold total_duration in Htd. simpl in Htd.
  set (m := py_max_from_Q (n_start n0 + n_dur n0) (map (fun n => n_start n + n_dur n)%Q ns))
    in Htd.
  destruct (py_max_from_Q_spec (n_start n0 + n_dur n0) (map (fun n => n_start n + n_dur n)%Q ns))
    as (Hm0 & Hm & _). fold m in Hm0, Hm.
  assert (Hend : (n_start n + n_dur n <= m)%Q).
  { destruct Hin as [<-|Hin]; [done|]. apply Hm. apply in_map_iff. eauto. }
  destruct (Hn n Hin) as [Hs Hd].
  assert (Hmpos : (0 < m)%Q) by lra.
  assert (Htdm : td = m).
  { destruct (Qeq_bool m 0) eqn:E; [|congruence].
    apply Qeq_bool_iff in E. lra. }
  subst td.
  assert (Hw' : (inject_Z 0 <= inject_Z width)%Q) by (rewrite <- Zle_Qle; done).
  assert (Hdiv : forall a b, (a <= b)%Q -> (a / m <= b / m)%Q).
  { intros a b Hab. unfold Qdiv. apply Qmult_le_compat_r; [done|].
    apply Qinv_le_0_compat. lra. }
  assert (H0 : (0 <= n_start n / m)%Q).
  { apply Qle_shift_div_l; [done|]. lra. }
  assert (H1 : (n_start n / m <= (n_start n + n_dur n) / m)%Q) by (apply Hdiv; lra).
  assert (H2 : ((n_start n + n_dur n) / m <= 1)%Q).
  { apply Qle_shift_div_r; [done|]. lra. }
  unfold x_of. split; [|split].
  - rewrite <- (py_int_Z 0). apply py_int_mono.
    apply Qmult_le_0_compat; done.
  - apply py_int_mono. apply Qmult_le_compat_r; done.
  - rewrite <- (py_int_Z width) at 2. apply py_int_mono.
    apply Qle_trans with (1 * inject_Z width)%Q; [|lra].
    apply Qmult_le_compat_r; done.
Qed.

(** For intervals as the builder makes them (start >= 0, duration > 0),
    every x coordinate [int(t / total_duration * width)] a renderer
    computes at the start or end of an interval lies in [0, width], the
    start one left of the end one. *)
Theorem x_coordinates_in_canvas :
  forall notes td width,
    0 <= width ->
    (forall n, In n notes -> 0 <= n_start n /\ 0 < n_dur n)%Q ->
    total_duration notes = Some td ->
    forall n, In n notes ->
      0 <= x_of (n_start n) td width
      /\ x_of (n_start n) td width <= x_of (n_start n + n_dur n)%Q td width
      /\ x_of (n_start n + n_dur n)%Q td width <= width.
Proof. intros notes td width. apply x_of_bounds. Qed.

Lemma x_coordinates_in_canvas_witness :
  0 <= x_of 0 (8 # 4) 1000 /\ x_of 0 (8 # 4) 1000 <= x_of (0 + 1)%Q (8 # 4) 1000
  /\ x_of (0 + 1)%Q (8 # 4) 1000 <= 1000.
Proof.
  apply (x_coordinates_in_canvas example_notes (8 # 4) 1000 ltac:(lia)) with (n := NoteIv 60 0 1 100).
  - intros n Hn. simpl in Hn.
    destruct Hn as [<-|[<-|[<-|[]]]]; simpl; split; lra.
  - vm_compute. reflexivity.
  - simpl. left. reflexivity.
Defined.

Lemma note_offset_in_range notes lo rg n :
  min_note notes = Some lo -> note_range notes = Some rg -> In n notes ->
  0 <= n_note n - lo <= rg /\ 0 < rg.
Proof.
  intros Hlo Hrg Hin. destruct notes as [|n0 ns]; [discriminate|].
  unfold note_range in Hrg. rewrite Hlo in Hrg.
  unfold min_note, max_note, py_min_Z, py_max_Z in *. cbn [map] in *.
  injection Hlo as <-. injection Hrg as <-.
  destruct (py_min_from_Z_spec (n_note n0) (map n_note ns)) as (Hlo0 & Hlo).
  destruct (py_max_from_Z_spec (n_note n0) (map n_note ns)) as (Hhi0 & Hhi).
  destruct Hin as [<-|Hin]; [lia|].
  assert (Hx : In (n_note n) (map n_note ns)) by (apply in_map_iff; eauto).
  specialize (Hlo _ Hx). specialize (Hhi _ Hx). lia.
Qed.

Lemma scaled_drop_bounds h off lo rg p :
  0 <= p - lo <= rg -> 0 < rg -> off <= h ->
  (inject_Z h - inject_Z h + inject_Z off <= inject_Z h
     - (inject_Z (p - lo) / inject_Z rg) * inject_Z (h - off) <= inject_Z h)%Q.
Proof.
  intros Hp Hrg Hoff. destruct (ratio_unit (p - lo) rg Hp Hrg) as [Hr0 Hr1].
  set (r := (inject_Z (p - lo) / inject_Z rg)%Q) in *.
  assert (Hk : (inject_Z 0 <= inject_Z (h - off))%Q) by (rewrite <- Zle_Qle; lia).
  rewrite inject_Z_sub in Hk |- *.
  assert (Hrk0 : (0 <= r * (inject_Z h - inject_Z off))%Q) by (apply Qmult_le_0_compat; done).
  assert (Hrk1 : (r * (inject_Z h - inject_Z off) <= 1 * (inject_Z h - inject_Z off))%Q)
    by (apply Qmult_le_compat_r; done).
  split; lra.
Qed.

(** For every interval of a non-empty collection, the y coordinate of
    the deterministic renderers ([height - (note - min_note) / note_range
    * (height - 50)], written alike in the neon, particle, geometric and
    classic styles) lies in [50, height] once [height >= 50]; the
    watercolor y ([height - 50 - ... * (height - 100)]) lies in
    [50, height - 50] once [height >= 100]. *)
Theorem y_coordinates_in_canvas :
  forall notes lo rg height n,
    min_note notes = Some lo -> note_range notes = Some rg -> In n notes ->
    50 <= height ->
    (50 <= classic_y height lo rg (n_note n) <= inject_Z height)%Q
    /\ (50 <= neon_y height lo rg (n_note n) <= inject_Z height)%Q
    /\ (50 <= particle_y height lo rg (n_note n) <= inject_Z height)%Q
    /\ (50 <= geometric_y height lo rg (n_note n) <= inject_Z height)%Q
    /\ ((100 <= height)%Z ->
        50 <= watercolor_y height lo rg (n_note n) <= inject_Z height - 50)%Q.
Proof.
  intros notes lo rg height n Hlo Hrg Hin Hh.
  destruct (note_offset_in_range notes lo rg n Hlo Hrg Hin) as [Hp Hr].
  assert (Hd : (inject_Z height - inject_Z height + inject_Z 50 <= inject_Z height
     - (inject_Z (n_note n - lo) / inject_Z rg) * inject_Z (height - 50) <= inject_Z height)%Q)
    by (apply scaled_drop_bounds; lia).
  change (inject_Z 50) with 50%Q in Hd.
  assert (Hc : (50 <= classic_y height lo rg (n_note n) <= inject_Z height)%Q)
    by (unfold classic_y; split; lra).
  split; [exact Hc|]. split; [exact Hc|]. split; [exact Hc|]. split; [exact Hc|].
  intros H100.
  assert (Hw : (inject_Z height - inject_Z height + inject_Z 100 <= inject_Z height
     - (inject_Z (n_note n - lo) / inject_Z rg) * inject_Z (height - 100) <= inject_Z height)%Q)
    by (apply scaled_drop_bounds; lia).
  change (inject_Z 100) with 100%Q in Hw.
  unfold watercolor_y. split; lra.
Qed.

Lemma y_coordinates_in_canvas_witness :
  (50 <= classic_y 600 60 7 64 <= inject_Z 600)%Q
  /\ (50 <= neon_y 600 60 7 64 <= inject_Z 600)%Q
  /\ (50 <= particle_y 600 60 7 64 <= inject_Z 600)%Q
  /\ (50 <= geometric_y 600 60 7 64 <= inject_Z 600)%Q
  /\ ((100 <= 600)%Z -> 50 <= watercolor_y 600 60 7 64 <= inject_Z 600 - 50)%Q.
Proof.
  apply (y_coordinates_in_canvas example_notes 60 7 600 (NoteIv 64 (1 # 2) 1 80)).
  - reflexivity.
  - reflexivity.
  - simpl. right. left. reflexivity.
  - lia.
Defined.

(** ** The vignette: further properties *)

Lemma py_range_in a b k : In k (py_range a b) -> a <= k < b.
Proof.
  unfold py_range. intros Hk. apply in_map_iff in Hk as (j & <- & Hj).
  apply in_seq in Hj. lia.
Qed.

Lemma vignette_fold_inv (P : rgba -> Prop) (f : rgba -> Z -> rgba) l acc :
  P acc -> (forall acc i, In i l -> P acc -> P (f acc i)) -> P (fold_left f l acc).
Proof.
  revert acc. induction l as [|i l IH]; intros acc Hacc Hf; cbn [fold_left]; [done|].
  apply IH; [apply Hf; [left|]; done|]. intros acc' j Hj. apply Hf. by right.
Qed.

Lemma vignette_layer_center width height intensity x y :
  Z.min width height / 3 <= x <= width - Z.min width height / 3 ->
  Z.min width height / 3 <= y <= height - Z.min width height / 3 ->
  vignette_layer width height intensity x y = (0, 0, 0, 0).
Proof.
  intros Hx Hy. unfold vignette_layer.
  apply (vignette_fold_inv (fun acc => acc = (0, 0, 0, 0))); [done|].
  intros acc i Hi ->. apply py_range_in in Hi.
  unfold on_outline.
  replace (x =? i) with false by lia. replace (x =? width - i) with false by lia.
  replace (y =? i) with false by lia. replace (y =? height - i) with false by lia.
  reflexivity.
Qed.

Lemma rgba_rgb_roundtrip c : rgba_to_rgb (rgb_to_rgba c) = c.
Proof. by destruct c as [[r g] b]. Qed.

Lemma vignette_alpha_range mb i intensity :
  0 <= i < mb -> (0 <= intensity <= 1)%Q -> 0 <= vignette_alpha mb i intensity <= 70.
Proof.
  intros Hi HI. destruct (ratio_unit i mb ltac:(lia) ltac:(lia)) as [Hr0 Hr1].
  unfold vignette_alpha.
  set (r := (inject_Z i / inject_Z mb)%Q) in *.
  assert (Hu : (0 <= 70 * (1 - r) <= 70)%Q) by lra.
  assert (H0 : (0 <= 70 * (1 - r) * intensity)%Q)
    by (apply Qmult_le_0_compat; lra).
  assert (H1 : (intensity * (70 * (1 - r)) <= 1 * (70 * (1 - r)))%Q)
    by (apply Qmult_le_compat_r; lra).
  split.
  - apply Z.le_trans with (py_int (inject_Z 0)); [rewrite py_int_Z; lia|].
    apply py_int_mono. exact H0.
  - apply Z.le_trans with (py_int (inject_Z 70)); [|rewrite py_int_Z; lia].
    apply py_int_mono. change (inject_Z 70) with 70%Q.
    rewrite Qmult_comm. lra.
Qed.

Lemma vignette_layer_black width height intensity x y :
  (0 <= intensity <= 1)%Q ->
  exists a, vignette_layer width height intensity x y = (0, 0, 0, a) /\ 0 <= a <= 70.
Proof.
  intros HI. unfold vignette_layer.
  apply (vignette_fold_inv (fun acc => exists a, acc = (0, 0, 0, a) /\ 0 <= a <= 70)).
  - exists 0. split; [done|lia].
  - intros acc i Hi Hacc. apply py_range_in in Hi.
    destruct (on_outline i width height x y); [|done].
    eexists. split; [reflexivity|]. apply vignette_alpha_range; done.
Qed.

Lemma darken_channel d a :
  0 <= d <= 255 -> 1 <= a <= 70 ->
  0 <= Z.shiftr (shift_for_div255 (0 * (128 * a) + d * (255 * 128 - 128 * a) + 16384)) 7 <= d.
Proof.
  intros Hd Ha. unfold shift_for_div255.
  rewrite !Z.shiftr_div_pow2 by lia.
  change (2 ^ 8) with 256. change (2 ^ 7) with 128.
  set (X := 0 * (128 * a) + d * (255 * 128 - 128 * a) + 16384).
  assert (HX : 0 <= X <= 128 * (254 * d + 128)) by (unfold X; nia).
  clearbody X.
  split.
  - apply Z.div_pos; [|lia]. apply Z.div_pos; [|lia].
    assert (0 <= X / 256) by (apply Z.div_pos; lia). lia.
  - pose proof (Z.mul_div_le X 256 ltac:(lia)) as H1.
    pose proof (Z.mul_div_le (X / 256 + X) 256 ltac:(lia)) as H2.
    pose proof (Z.mul_div_le ((X / 256 + X) / 256) 128 ltac:(lia)) as H3.
    set (q1 := X / 256) in *. set (q2 := (q1 + X) / 256) in *. set (q3 := q2 / 128) in *.
    clearbody q1 q2 q3. lia.
Qed.

Lemma composite_black_darkens r g b a :
  0 <= r <= 255 -> 0 <= g <= 255 -> 0 <= b <= 255 -> 0 <= a <= 70 ->
  exists r' g' b',
    rgba_to_rgb (alpha_composite_px (r, g, b, 255) (0, 0, 0, a)) = (r', g', b')
    /\ 0 <= r' <= r /\ 0 <= g' <= g /\ 0 <= b' <= b.
Proof.
  intros Hr Hg Hb Ha. unfold alpha_composite_px.
  destruct (Z.eqb_spec a 0) as [->|Ha0].
  { exists r, g, b. cbn. split; [done|lia]. }
  replace (a * 255 + 255 * (255 - a)) with 65025 by lia.
  replace (a * 255 * 255 * Z.shiftl 1 7 / 65025) with (128 * a)
    by (change (Z.shiftl 1 7) with 128;
        replace (a * 255 * 255 * 128) with (128 * a * 65025) by lia;
        rewrite Z.div_mul; lia).
  change (Z.shiftl 1 7) with 128. change (Z.shiftl 128 7) with 16384.
  cbn [rgba_to_rgb].
  do 3 eexists. split; [reflexivity|].
  split; [|split]; apply darken_channel; lia.
Qed.

(** [apply_vignette] leaves the central region untouched: a pixel at
    distance at least [max_border = min(width, height) // 3] from the
    left and top edges, and with [x <= width - max_border],
    [y <= height - max_border], keeps its colour, for any intensity. *)
Theorem vignette_center_unchanged :
  forall img intensity x y,
    Z.min (iw img) (ih img) / 3 <= x <= iw img - Z.min (iw img) (ih img) / 3 ->
    Z.min (iw img) (ih img) / 3 <= y <= ih img - Z.min (iw img) (ih img) / 3 ->
    ipx (apply_vignette img intensity) x y = ipx img x y.
Proof.
  intros img intensity x y Hx Hy. unfold apply_vignette. cbn [ipx iw ih].
  rewrite (vignette_layer_center _ _ _ _ _ Hx Hy).
  destruct (ipx img x y) as [[r g] b]. reflexivity.
Qed.

Lemma vignette_center_unchanged_witness :
  ipx (apply_vignette (image_new 30 30 (1, 2, 3)) (9 # 10)) 15 15
  = ipx (image_new 30 30 (1, 2, 3)) 15 15.
Proof.
  apply vignette_center_unchanged; vm_compute; split; intros Hc; discriminate.
Defined.

(** With an intensity in [0, 1], the vignette only darkens: every channel
    of every byte-valued pixel stays a byte and does not increase. *)
Theorem vignette_never_brightens :
  forall img intensity x y r g b,
    (0 <= intensity <= 1)%Q ->
    ipx img x y = (r, g, b) ->
    0 <= r <= 255 -> 0 <= g <= 255 -> 0 <= b <= 255 ->
    exists r' g' b',
      ipx (apply_vignette img intensity) x y = (r', g', b')
      /\ 0 <= r' <= r /\ 0 <= g' <= g /\ 0 <= b' <= b.
Proof.
  intros img intensity x y r g b HI Hpx Hr Hg Hb.
  unfold apply_vignette. cbn [ipx iw ih]. rewrite Hpx. cbn [rgb_to_rgba].
  destruct (vignette_layer_black (iw img) (ih img) intensity x y HI) as (a & -> & Ha).
  apply composite_black_darkens; done.
Qed.

Lemma vignette_never_brightens_witness :
  exists r' g' b',
    ipx (apply_vignette (image_new 30 30 (200, 100, 0)) 1) 0 0 = (r', g', b')
    /\ 0 <= r' <= 200 /\ 0 <= g' <= 100 /\ 0 <= b' <= 0.
Proof.
  apply (vignette_never_brightens (image_new 30 30 (200, 100, 0)) 1 0 0 200 100 0).
  - split; discriminate.
  - reflexivity.
  - lia.
  - lia.
  - lia.
Defined.

(** ** Randomised renderers: further properties *)



Lemma randint_low_contract : randint_contract (fun lo _ (k : nat) => (lo, S k)).
Proof. intros lo hi k H. cbn [fst]. lia. Qed.


Lemma py_int_div10 v : Z.to_nat (py_int (inject_Z v / 10)) = Z.to_nat (v / 10).
Proof.
  unfold py_int. destruct (Qle_bool 0 (inject_Z v / 10)) eqn:E.
  - unfold Qfloor. cbn. by rewrite Z.mul_1_r.
  - unfold Qle_bool in E. cbn in E. unfold Qfloor. cbn.
    rewrite Z.mul_1_r in *.
    assert (v < 0) by lia.
    assert (v / 10 < 0) by (apply Z.div_lt_upper_bound; lia).
    assert (0 <= - v / 10) by (apply Z.div_pos; lia).
    change (Z.pos (1 * 10)) with 10. lia.
Qed.

Lemma particles_length rng randint k x y c (r : rng) :
  length (fst (particles rng randint k x y c r)) = k.
Proof.
  revert r. induction k as [|k IH]; intros r; cbn [particles]; [done|].
  destruct (randint (-30) 30 r) as [dx r1].
  destruct (randint (-30) 30 r1) as [dy r2].
  destruct (randint 1 5 r2) as [size r3].
  specialize (IH r3). destruct (particles rng randint k x y c r3) as [rest r4].
  cbn [fst length] in *. lia.
Qed.

(** Whatever the random generator returns, the particle renderer draws
    [int(vel / 10)] particles per interval, none for a negative velocity:
    the number of drawing calls is the sum of [vel // 10] over the
    intervals, each clamped at 0. *)
Theorem particle_count_total :
  forall rng randint notes width height gc td mn rg (r : rng),
    length (fst (particle_cmds rng randint notes width height gc td mn rg r))
    = list_sum (map (fun n => Z.to_nat (n_vel n / 10)) notes).
Proof.
  intros rng randint notes width height gc td mn rg r. revert r.
  induction notes as [|n ns IH]; intros r; cbn [particle_cmds]; [done|].
  pose proof (particles_length rng randint (Z.to_nat (py_int (inject_Z (n_vel n) / 10)))
    (x_of (n_start n + n_dur n / 2)%Q td width) (particle_y height mn rg (n_note n))
    (gc (n_note n) (n_vel n)) r) as Hl.
  destruct (particles rng randint _ _ _ _ r) as [cs r1].
  specialize (IH r1).
  destruct (particle_cmds rng randint ns width height gc td mn rg r1) as [rest r2].
  cbn [fst map list_sum] in *. rewrite length_app, Hl, IH, py_int_div10. reflexivity.
Qed.

Lemma particles_spec rng randint k x y c (r : rng) :
  randint_contract randint ->
  forall cmd, In cmd (fst (particles rng randint k x y c r)) ->
    exists dx dy size, -30 <= dx <= 30 /\ -30 <= dy <= 30 /\ 1 <= size <= 5
      /\ cmd = DEllipse (inject_Z (x + dx - size)) (y + inject_Z dy - inject_Z size)%Q
                        (inject_Z (x + dx + size)) (y + inject_Z dy + inject_Z size)%Q
                        (Col3 c) None.
Proof.
  intros Hc. revert r. induction k as [|k IH]; intros r; cbn [particles]; [intros _ []|].
  destruct (randint (-30) 30 r) as [dx r1] eqn:E1.
  destruct (randint (-30) 30 r1) as [dy r2] eqn:E2.
  destruct (randint 1 5 r2) as [size r3] eqn:E3.
  pose proof (Hc (-30) 30 r ltac:(lia)) as H1. rewrite E1 in H1.
  pose proof (Hc (-30) 30 r1 ltac:(lia)) as H2. rewrite E2 in H2.
  pose proof (Hc 1 5 r2 ltac:(lia)) as H3. rewrite E3 in H3.
  specialize (IH r3).
  destruct (particles rng randint k x y c r3) as [rest r4].
  cbn [fst] in *. intros cmd [<-|Hin]; [|by apply IH].
  exists dx, dy, size. done.
Qed.

(** With [randint] keeping to its range, every particle is a disc with
    no outline, filled with the interval's colour, of radius 1..5, centred
    at most 30 pixels away (on each axis) from the interval's midpoint
    [(x, y)]. *)
Theorem particle_shapes :
  forall rng randint notes width height gc td mn rg (r : rng),
    randint_contract randint ->
    forall cmd, In cmd (fst (particle_cmds rng randint notes width height gc td mn rg r)) ->
    exists n dx dy size, In n notes
      /\ -30 <= dx <= 30 /\ -30 <= dy <= 30 /\ 1 <= size <= 5
      /\ cmd = DEllipse
                 (inject_Z (x_of (n_start n + n_dur n / 2)%Q td width + dx - size))
                 (particle_y height mn rg (n_note n) + inject_Z dy - inject_Z size)%Q
                 (inject_Z (x_of (n_start n + n_dur n / 2)%Q td width + dx + size))
                 (particle_y height mn rg (n_note n) + inject_Z dy + inject_Z size)%Q
                 (Col3 (gc (n_note n) (n_vel n))) None.
Proof.
  intros rng randint notes width height gc td mn rg r Hc. revert r.
  induction notes as [|n ns IH]; intros r; cbn [particle_cmds]; [intros _ []|].
  pose proof (particles_spec rng randint (Z.to_nat (py_int (inject_Z (n_vel n) / 10)))
    (x_of (n_start n + n_dur n / 2)%Q td width) (particle_y height mn rg (n_note n))
    (gc (n_note n) (n_vel n)) r Hc) as Hp.
  destruct (particles rng randint _ _ _ _ r) as [cs r1].
  specialize (IH r1).
  destruct (particle_cmds rng randint ns width height gc td mn rg r1) as [rest r2].
  cbn [fst] in *. intros cmd Hin. apply in_app_or in Hin as [Hin|Hin].
  - destruct (Hp cmd Hin) as (dx & dy & size & Hdx & Hdy & Hs & ->).
    exists n, dx, dy, size. split; [left|]; done.
  - destruct (IH cmd Hin) as (n' & dx & dy & size & Hn' & Hdx & Hdy & Hs & ->).
    exists n', dx, dy, size. split; [right|]; done.
Qed.

Lemma particle_shapes_witness :
  exists n dx dy size, In n example_notes
    /\ -30 <= dx <= 30 /\ -30 <= dy <= 30 /\ 1 <= size <= 5
    /\ nth 0 (fst (particle_cmds nat (fun lo _ k => (lo, S k)) example_notes 1000 500
                   (get_color "fire") 2 60 7 0%nat)) (DPolygon [] (Col3 (0, 0, 0)))
       = DEllipse
           (inject_Z (x_of (n_start n + n_dur n / 2)%Q 2 1000 + dx - size))
           (particle_y 500 60 7 (n_note n) + inject_Z dy - inject_Z size)%Q
           (inject_Z (x_of (n_start n + n_dur n / 2)%Q 2 1000 + dx + size))
           (particle_y 500 60 7 (n_note n) + inject_Z dy + inject_Z size)%Q
           (Col3 (get_color "fire" (n_note n) (n_vel n))) None.
Proof.
  apply (particle_shapes nat (fun lo _ k => (lo, S k)) example_notes 1000 500
           (get_color "fire") 2 60 7 0%nat); [exact randint_low_contract|].
  apply nth_In. vm_compute. lia.
Defined.

(** ** The pipeline: further properties *)












(** Only the watercolor and particle styles draw random numbers: for any
    other style name (including unknown ones, which fall back to the
    classic style) [midi_to_artistic], when it returns, returns the
    generator unchanged. *)
Theorem midi_to_artistic_no_randomness :
  forall rng randint draw_prim smooth_more gaussian_blur msgs cfg (r : rng),
    style cfg <> "watercolor" -> style cfg <> "particles" ->
    match midi_to_artistic rng randint draw_prim smooth_more gaussian_blur msgs cfg r with
    | Some (_, r') => r' = r
    | None => True
    end.
Proof.
  intros rng randint draw_prim smooth_more gaussian_blur msgs cfg r Hw Hp.
  unfold midi_to_artistic.
  destruct (music_notes (collect_events 0 msgs)) as [|n0 ns] eqn:E; [done|].
  rewrite <- E.
  unfold note_range, total_duration, min_note, max_note, py_min_Z, py_max_Z, py_max_Q.
  rewrite E. cbn [map].
  unfold render_style.
  destruct (String.eqb_spec (style cfg) "watercolor"); [done|].
  destruct (String.eqb (style cfg) "particles") eqn:Ep.
  { apply String.eqb_eq in Ep. done. }
  repeat match goal with |- context [if ?b then _ else _] => destruct b end;
    match goal with |- context [with_rng ?o r] => destruct o end; cbn [with_rng]; done.
Qed.

Lemma midi_to_artistic_no_randomness_witness :
  match midi_to_artistic nat (fun lo _ k => (lo, S k)) (fun _ img => img) (fun img => img)
      (fun _ img => img)
      [Msg false "note_on" 60 100 0; Msg false "note_off" 60 0 1]
      (Config 2000 500 (15, 15, 25) "neon" "hsv" true (1 # 2) (7 # 10)) 7%nat with
  | Some (_, r') => r' = 7%nat
  | None => True
  end.
Proof.
  apply midi_to_artistic_no_randomness; discriminate.
Defined.

(** ** Colour mapper: velocity *)

Lemma channel_ok_spec r g b :
  channel_ok (r, g, b) = true <-> 0 <= r <= 255 /\ 0 <= g <= 255 /\ 0 <= b <= 255.
Proof. unfold channel_ok. rewrite !andb_true_iff, !Z.leb_le. lia. Qed.

Lemma dict_get_ok d k def :
  forallb (fun kv => channel_ok (snd kv)) d = true -> channel_ok def = true ->
  channel_ok (dict_get d k def) = true.
Proof.
  intros Hd Hdef. unfold dict_get.
  destruct (find (fun kv => String.eqb (fst kv) k) d) as [[k' v]|] eqn:E; [|done].
  apply find_some in E as [Hin _]. rewrite forallb_forall in Hd.
  exact (Hd _ Hin).
Qed.

Lemma Qltb_false a b : Qltb a b = false -> (b <= a)%Q.
Proof. unfold Qltb. rewrite negb_false_iff. apply Qle_bool_iff. Qed.

Lemma scale_mono c i1 i2 : 0 <= c -> (i1 <= i2)%Q ->
  py_int (inject_Z c * i1) <= py_int (inject_Z c * i2).
Proof.
  intros Hc Hi. apply py_int_mono.
  assert (Hc' : (inject_Z 0 <= inject_Z c)%Q) by (rewrite <- Zle_Qle; done).
  rewrite (Qmult_comm (inject_Z c) i1), (Qmult_comm (inject_Z c) i2).
  apply Qmult_le_compat_r; done.
Qed.

Lemma palette_scale_mono d k def i1 i2 :
  forallb (fun kv => channel_ok (snd kv)) d = true -> channel_ok def = true ->
  (i1 <= i2)%Q ->
  rgb_le (map3 (fun c => py_int (inject_Z c * i1)) (dict_get d k def))
         (map3 (fun c => py_int (inject_Z c * i2)) (dict_get d k def)).
Proof.
  intros Hd Hdef Hi. pose proof (dict_get_ok d k def Hd Hdef) as Hok.
  destruct (dict_get d k def) as [[r g] b]. apply channel_ok_spec in Hok.
  cbn. split; [|split]; apply scale_mono; first [lia | done].
Qed.

Lemma rgb_le_refl c : rgb_le c c.
Proof. destruct c as [[r g] b]. cbn. lia. Qed.

(** For every palette but [hsv], a louder note is never darker: each
    channel of [get_color palette note v] is non-decreasing in the
    velocity [v] (pastel and unknown palettes ignore it). *)
Theorem get_color_velocity_monotone :
  forall palette note v1 v2,
    palette <> "hsv" -> v1 <= v2 ->
    rgb_le (get_color palette note v1) (get_color palette note v2).
Proof.
  intros palette note v1 v2 Hhsv Hv.
  assert (HR : (inject_Z v1 / 127 <= inject_Z v2 / 127)%Q).
  { unfold Qdiv. apply Qmult_le_compat_r; [rewrite <- Zle_Qle; done|discriminate]. }
  unfold get_color. cbv zeta.
  set (R1 := (inject_Z v1 / 127)%Q) in *. set (R2 := (inject_Z v2 / 127)%Q) in *.
  clearbody R1 R2.
  set (bn := String.substring 0 1 (nth (Z.to_nat (note mod 12)) note_names "")).
  destruct (String.eqb_spec palette "hsv"); [done|].
  destruct (String.eqb_spec palette "ocean").
  { apply palette_scale_mono; [reflexivity|reflexivity|lra]. }
  destruct (String.eqb_spec palette "forest").
  { apply palette_scale_mono; [reflexivity|reflexivity|lra]. }
  destruct (String.eqb_spec palette "sunset").
  { assert (Hok : channel_ok (dict_get sunset_palette bn (255, 255, 200)) = true)
      by (apply dict_get_ok; reflexivity).
    destruct (dict_get sunset_palette bn (255, 255, 200)) as [[r g] b].
    apply channel_ok_spec in Hok. cbn.
    assert (Hi : ((1 # 2) + R1 * (1 # 2) <= (1 # 2) + R2 * (1 # 2))%Q) by lra.
    pose proof (scale_mono r _ _ ltac:(lia) Hi).
    pose proof (scale_mono g _ _ ltac:(lia) Hi).
    pose proof (scale_mono b _ _ ltac:(lia) Hi). lia. }
  destruct (String.eqb_spec palette "pastel"); [apply rgb_le_refl|].
  destruct (String.eqb_spec palette "grayscale").
  { cbn. assert (H : py_int (50 + R1 * 205) <= py_int (50 + R2 * 205))
      by (apply py_int_mono; lra). lia. }
  destruct (String.eqb_spec palette "fire").
  { destruct (Qltb (R1 * (7 # 10) + (3 # 10)) (1 # 2)) eqn:E1;
    destruct (Qltb (R2 * (7 # 10) + (3 # 10)) (1 # 2)) eqn:E2;
    [apply Qltb_iff in E1, E2 | apply Qltb_iff in E1; apply Qltb_false in E2
    | apply Qltb_false in E1; apply Qltb_iff in E2 | apply Qltb_false in E1, E2]; cbn.
    - split; [|split]; [apply py_int_mono; lra | apply py_int_mono; lra | lia].
    - split; [|split].
      + apply Z.le_trans with (py_int (inject_Z 255)); [|rewrite py_int_Z; lia].
        apply py_int_mono. change (inject_Z 255) with 255%Q. lra.
      + apply py_int_mono. lra.
      + apply Z.le_trans with (py_int (inject_Z 0)); [rewrite py_int_Z; lia|].
        apply py_int_mono. change (inject_Z 0) with 0%Q. lra.
    - exfalso. lra.
    - split; [lia|]. split; apply py_int_mono; lra. }
  destruct (String.eqb_spec palette "ice").
  { cbn. split; [|split]; apply py_int_mono; lra. }
  apply rgb_le_refl.
Qed.

Lemma get_color_velocity_monotone_witness :
  rgb_le (get_color "fire" 61 40) (get_color "fire" 61 120).
Proof.
  apply get_color_velocity_monotone; [discriminate|lia].
Defined.
